(** * SolidJS primitives over the core controllers

    A shallow embedding of [src/index.ts] (and of its build output
    [dist/index.js], which is the same program with the types erased).

    The package wraps nine controllers of the core library in Solid's
    signals and effects.  Neither Solid nor the core library is part of the
    repository, so both are modelled here as the environment the nine
    primitives run in:

    - Solid: a store of signal cells, one effect per primitive whose body
      is run on mount and on every re-run, and the [onCleanup] list that is
      emptied before a re-run and on disposal;
    - the core library: an abstract [Core] interface; what a controller
      does inside a method is opaque, only its observer registry is
      spelled out (a listener is held from [subscribe] until the returned
      unsubscribe function is called). *)

From stdpp Require Import base list strings.
From Stdlib Require Import ZArith.

(** ** JavaScript values *)

(** The values that cross the boundary between the primitives, the core
    controllers and the caller.  A promise is represented by the way it
    settles. *)
#[local] Unset Elimination Schemes.
Inductive jsval : Type :=
| JUndefined
| JNull
| JBool (b : bool)
| JNum (n : Z)
| JStr (s : string)
| JArr (items : list jsval)
| JObj (props : list (string * jsval))
| JPromise (fulfilled : bool) (payload : jsval).
#[local] Set Elimination Schemes.

Fixpoint assoc (k : string) (ps : list (string * jsval)) : jsval :=
  match ps with
  | [] => JUndefined
  | (k', v) :: ps' => if String.eqb k k' then v else assoc k ps'
  end.

(** [o.k]: a property that is absent reads as [undefined].  The receivers
    in this file ([options], [state]) are objects by their types. *)
Definition prop (o : jsval) (k : string) : jsval :=
  match o with
  | JObj ps => assoc k ps
  | _ => JUndefined
  end.

Notation "o .[ k ]" := (prop o k) (at level 1, left associativity, format "o .[ k ]").

(** [v !== false] *)
Definition strict_ne_false (v : jsval) : bool :=
  match v with
  | JBool false => false
  | _ => true
  end.

(** The i-th actual argument of a call; a missing one is [undefined]. *)
Definition arg (i : nat) (args : list jsval) : jsval := nth i args JUndefined.

(** [async (...) => { await p; }]: the returned promise is rejected with
    the reason of [p] when [p] is rejected, and fulfilled with [undefined]
    otherwise (a value that is not a promise is awaited as itself). *)
Definition async_await (p : jsval) : jsval :=
  match p with
  | JPromise false reason => JPromise false reason
  | _ => JPromise true JUndefined
  end.

(** ** The core library *)

(** What a controller does while one of its methods runs, or later on its
    own (a response arrives): it changes its internals and pushes states
    to its listeners. *)
Inductive activity (CS : Type) : Type :=
| Become (c : CS)
| Notify (state : jsval).
Arguments Become {CS} c.
Arguments Notify {CS} state.

(** The interface of [@jamwidgets/core] as far as [index.ts] uses it.
    [method cls m args c] is what calling [m(args)] on a controller of
    class [cls] with internals [c] does and returns; [getter] is a method
    that only reads ([hasVoted], [getVisibleAnnouncements]);
    [namespace] is the module's export table. *)
Class Core : Type := {
  CS : Type;
  resolveConfig : jsval → jsval;
  construct : string → list jsval → CS;
  method : string → string → list jsval → CS → list (activity CS) * jsval;
  getter : string → string → CS → jsval;
  Export : Type;
  namespace : string → option Export
}.

Section Solid.
Context `{core : Core}.

Record Controller : Type := {
  class : string;
  ctor_args : list jsval;
  internals : CS
}.

(** ** The runtime *)

(** A callback reads the controllers and writes signal cells. *)
Definition L (A : Type) : Type := list Controller → list jsval → A * list jsval.

#[global] Instance L_ret : MRet L := λ A a _ cells, (a, cells).
#[global] Instance L_bind : MBind L :=
  λ A B f m ctls cells, f (m ctls cells).1 ctls (m ctls cells).2.

Definition Listener : Type := jsval → L unit.

Record Subscription : Type := {
  sub_ctl : nat;
  sub_id : nat;
  sub_listener : Listener
}.

(** The function [controller.subscribe] returns; calling it removes the
    listener registered under [unsub_id]. *)
Record Unsubscribe : Type := { unsub_id : nat }.

Inductive entry : Type :=
| Constructed (cls : string) (args : list jsval)
| Subscribed (ctl id : nat)
| Invoked (ctl : nat) (m : string) (args : list jsval)
| Notified (id : nat) (state : jsval)
| Unsubscribed (id : nat).

Record World : Type := {
  cells : list jsval;          (* the signals, in creation order *)
  ctls : list Controller;      (* the controllers constructed so far *)
  subs : list Subscription;    (* the listeners the controllers hold *)
  fresh : nat;                 (* the next subscription id *)
  cleanups : list Unsubscribe; (* registered by [onCleanup] in the current run *)
  log : list entry             (* what happened at the boundary, oldest first *)
}.

Definition empty_world : World :=
  {| cells := []; ctls := []; subs := []; fresh := 0; cleanups := []; log := [] |}.

Definition with_cells (cs : list jsval) (w : World) : World :=
  {| cells := cs; ctls := ctls w; subs := subs w; fresh := fresh w;
     cleanups := cleanups w; log := log w |}.
Definition with_ctls (cs : list Controller) (w : World) : World :=
  {| cells := cells w; ctls := cs; subs := subs w; fresh := fresh w;
     cleanups := cleanups w; log := log w |}.
Definition with_subs (ss : list Subscription) (w : World) : World :=
  {| cells := cells w; ctls := ctls w; subs := ss; fresh := fresh w;
     cleanups := cleanups w; log := log w |}.
Definition with_fresh (n : nat) (w : World) : World :=
  {| cells := cells w; ctls := ctls w; subs := subs w; fresh := n;
     cleanups := cleanups w; log := log w |}.
Definition with_cleanups (us : list Unsubscribe) (w : World) : World :=
  {| cells := cells w; ctls := ctls w; subs := subs w; fresh := fresh w;
     cleanups := us; log := log w |}.
Definition note (e : entry) (w : World) : World :=
  {| cells := cells w; ctls := ctls w; subs := subs w; fresh := fresh w;
     cleanups := cleanups w; log := log w ++ [e] |}.

(** Code that runs after creation: effect bodies and the returned methods. *)
Definition M (A : Type) : Type := World → A * World.

#[global] Instance M_ret : MRet M := λ A a w, (a, w).
#[global] Instance M_bind : MBind M := λ A B f m w, f (m w).1 (m w).2.

(** A function value of JavaScript, called with its actual arguments. *)
Definition JsFunction : Type := list jsval → M jsval.

(** *** Controllers *)

(** Modelled from the spec: the controller's push-based state
    notifications.  The controller holds the listeners that subscribed
    and have not unsubscribed, and a pushed state is passed to each of
    them.

    One listener is called with a pushed state. *)
Definition invoke (s : jsval) (w : World) (sub : Subscription) : World :=
  note (Notified (sub_id sub) s)
    (with_cells (sub_listener sub s (ctls w) (cells w)).2 w).

(** The controller [r] pushes [s] to the listeners it holds. *)
Definition notify (r : nat) (s : jsval) (w : World) : World :=
  foldl (invoke s) w (filter (λ sub, sub_ctl sub = r) (subs w)).

Definition act (r : nat) (w : World) (a : activity CS) : World :=
  match a with
  | Become c =>
      with_ctls (alter (λ o, {| class := class o; ctor_args := ctor_args o;
                                internals := c |}) r (ctls w)) w
  | Notify s => notify r s w
  end.

Definition perform (r : nat) (acts : list (activity CS)) (w : World) : World :=
  foldl (act r) w acts.

(** [new cls(args)] *)
Definition new_controller (cls : string) (args : list jsval) (w : World) : nat * World :=
  (length (ctls w),
   note (Constructed cls args)
     (with_ctls (ctls w ++ [{| class := cls; ctor_args := args;
                               internals := construct cls args |}]) w)).

(** [controller.m(args)] *)
Definition call (r : nat) (m : string) (args : list jsval) : M jsval :=
  λ w, match ctls w !! r with
       | Some o =>
           let reaction := method (class o) m args (internals o) in
           (reaction.2, perform r reaction.1 (note (Invoked r m args) w))
       | None => (JUndefined, w)
       end.

(** Modelled from the spec: [controller.subscribe(listener)]; the listener
    joins the registry and the function that removes it again is
    returned. *)
Definition subscribe (r : nat) (l : Listener) : M Unsubscribe :=
  λ w, match ctls w !! r with
       | Some o =>
           let id := fresh w in
           let w1 := note (Subscribed r id)
                       (with_fresh (S id)
                          (with_subs (subs w ++ [{| sub_ctl := r; sub_id := id;
                                                    sub_listener := l |}]) w)) in
           ({| unsub_id := id |},
            perform r (method (class o) "subscribe" [] (internals o)).1 w1)
       | None => ({| unsub_id := fresh w |}, w)
       end.

(** Modelled from the spec: calling the function returned by [subscribe]
    ends the subscription. *)
Definition unsubscribe_call (u : Unsubscribe) (w : World) : World :=
  note (Unsubscribed (unsub_id u))
    (with_subs (filter (λ sub, sub_id sub ≠ unsub_id u) (subs w)) w).

(** [controller.g()] for one of the controller's two getters, [hasVoted]
    and [getVisibleAnnouncements]: the answer is read off the controller's
    internals.  The read is not entered in the log, which records the
    calls made with [call] only; nothing below counts or excludes calls
    of the getters. *)
Definition get (r : nat) (g : string) : M jsval :=
  λ w, match ctls w !! r with
       | Some o => (getter (class o) g (internals o), w)
       | None => (JUndefined, w)
       end.

(** The same read from inside a listener. *)
Definition get_in_listener (r : nat) (g : string) : L jsval :=
  λ ctls cells, match ctls !! r with
                | Some o => (getter (class o) g (internals o), cells)
                | None => (JUndefined, cells)
                end.

(** *** Solid *)

(** Modelled from the spec: the reactive runtime (signals, effects,
    cleanup).  Creation code allocates signals and controllers and
    registers effects, which Solid runs later. *)
Definition Create (A : Type) : Type := World → A * list (M unit) * World.

#[global] Instance Create_ret : MRet Create := λ A a w, (a, [], w).
#[global] Instance Create_bind : MBind Create :=
  λ A B f m w,
    let r := f (m w).1.1 (m w).2 in
    (r.1.1, (m w).1.2 ++ r.1.2, r.2).

(** [createSignal(init)]: the getter and the setter of a new cell. *)
Definition createSignal (init : jsval) : Create (JsFunction * (jsval → L unit)) :=
  λ w, let i := length (cells w) in
       ((λ _ w', (default JUndefined (cells w' !! i), w'),
         λ v _ cells, (tt, <[i := v]> cells)),
        [],
        with_cells (cells w ++ [init]) w).

Definition new (cls : string) (args : list jsval) : Create nat :=
  λ w, ((new_controller cls args w).1, [], (new_controller cls args w).2).

(** [createEffect(fn)] *)
Definition createEffect (fn : M unit) : Create unit := λ w, (tt, [fn], w).

(** [onCleanup(fn)] *)
Definition onCleanup (u : Unsubscribe) : M unit :=
  λ w, (tt, with_cleanups (cleanups w ++ [u]) w).

(** Modelled from the spec: before an effect runs again and when its
    owner is disposed of, the registered cleanups run, last-registered
    first, and are forgotten. *)
Definition run_cleanups (w : World) : World :=
  with_cleanups [] (foldr unsubscribe_call w (cleanups w)).

(** ** The primitives of [index.ts] *)

(** The object a primitive returns: its accessors and methods by name. *)
Definition Returned : Type := list (string * JsFunction).

Definition createSubscribe (options : jsval) : Create Returned :=
  '(status, setStatus) ← createSignal (JStr "idle");
  '(message, setMessage) ← createSignal JNull;
  '(error, setError) ← createSignal JNull;
  let config := resolveConfig options in
  controller ← new "SubscribeController" [config];
  createEffect (
    unsubscribe ← subscribe controller (λ state,
      setStatus state.["status"];;
      setMessage state.["message"];;
      setError state.["error"]);
    onCleanup unsubscribe);;
  let subscribe : JsFunction := λ args,
    p ← call controller "submit" [arg 0 args]; mret (async_await p) in
  let reset : JsFunction := λ _,
    call controller "reset" [];; mret JUndefined in
  mret [("status", status); ("message", message); ("error", error);
        ("subscribe", subscribe); ("reset", reset)].

Definition createForm (options : jsval) : Create Returned :=
  '(status, setStatus) ← createSignal (JStr "idle");
  '(message, setMessage) ← createSignal JNull;
  '(error, setError) ← createSignal JNull;
  let config := resolveConfig options in
  controller ← new "FormController" [config; options.["formSlug"]];
  createEffect (
    unsubscribe ← subscribe controller (λ state,
      setStatus state.["status"];;
      setMessage state.["message"];;
      setError state.["error"]);
    onCleanup unsubscribe);;
  let submit : JsFunction := λ args,
    p ← call controller "submit" [arg 0 args]; mret (async_await p) in
  let reset : JsFunction := λ _,
    call controller "reset" [];; mret JUndefined in
  mret [("status", status); ("message", message); ("error", error);
        ("submit", submit); ("reset", reset)].

Definition createReactions (options : jsval) : Create Returned :=
  '(counts, setCounts) ← createSignal (JObj []);
  '(userReactions, setUserReactions) ← createSignal (JArr []);
  '(status, setStatus) ← createSignal (JStr "idle");
  '(error, setError) ← createSignal JNull;
  let config := resolveConfig options in
  controller ← new "ReactionsController" [config; options.["contentId"]];
  createEffect (
    unsubscribe ← subscribe controller (λ state,
      setCounts state.["counts"];;
      setUserReactions state.["userReactions"];;
      setStatus state.["status"];;
      setError state.["error"]);
    (if strict_ne_false options.["autoFetch"]
     then call controller "fetch" [];; mret tt
     else mret tt);;
    onCleanup unsubscribe);;
  let addReaction : JsFunction := λ args,
    p ← call controller "add" [arg 0 args]; mret (async_await p) in
  let removeReaction : JsFunction := λ args,
    p ← call controller "remove" [arg 0 args]; mret (async_await p) in
  let refresh : JsFunction := λ _,
    p ← call controller "fetch" []; mret (async_await p) in
  mret [("counts", counts); ("userReactions", userReactions);
        ("status", status); ("error", error);
        ("addReaction", addReaction); ("removeReaction", removeReaction);
        ("refresh", refresh)].

Definition createComments (options : jsval) : Create Returned :=
  '(comments, setComments) ← createSignal (JArr []);
  '(status, setStatus) ← createSignal (JStr "idle");
  '(error, setError) ← createSignal JNull;
  let config := resolveConfig options in
  controller ← new "CommentsController" [config; options.["contentId"]];
  createEffect (
    unsubscribe ← subscribe controller (λ state,
      setComments state.["comments"];;
      setStatus state.["status"];;
      setError state.["error"]);
    (if strict_ne_false options.["autoFetch"]
     then call controller "fetch" [];; mret tt
     else mret tt);;
    onCleanup unsubscribe);;
  let postComment : JsFunction := λ args,
    p ← call controller "post" [arg 0 args; arg 1 args; arg 2 args];
    mret (async_await p) in
  let refresh : JsFunction := λ _,
    p ← call controller "fetch" []; mret (async_await p) in
  mret [("comments", comments); ("status", status); ("error", error);
        ("postComment", postComment); ("refresh", refresh)].

Definition createWaitlist (options : jsval) : Create Returned :=
  '(status, setStatus) ← createSignal (JStr "idle");
  '(message, setMessage) ← createSignal JNull;
  '(position, setPosition) ← createSignal JNull;
  '(error, setError) ← createSignal JNull;
  let config := resolveConfig options in
  controller ← new "WaitlistController" [config];
  createEffect (
    unsubscribe ← subscribe controller (λ state,
      setStatus state.["status"];;
      setMessage state.["message"];;
      setPosition state.["position"];;
      setError state.["error"]);
    onCleanup unsubscribe);;
  let join : JsFunction := λ args,
    p ← call controller "join" [arg 0 args; arg 1 args]; mret (async_await p) in
  let reset : JsFunction := λ _,
    call controller "reset" [];; mret JUndefined in
  mret [("status", status); ("message", message); ("position", position);
        ("error", error); ("join", join); ("reset", reset)].

Definition createViews (options : jsval) : Create Returned :=
  '(views, setViews) ← createSignal (JNum 0);
  '(uniqueVisitors, setUniqueVisitors) ← createSignal (JNum 0);
  '(status, setStatus) ← createSignal (JStr "idle");
  '(error, setError) ← createSignal JNull;
  let config := resolveConfig options in
  controller ← new "ViewCountsController" [config; options.["pageId"]];
  createEffect (
    unsubscribe ← subscribe controller (λ state,
      setViews state.["views"];;
      setUniqueVisitors state.["uniqueVisitors"];;
      setStatus state.["status"];;
      setError state.["error"]);
    (if strict_ne_false options.["autoRecord"]
     then call controller "record" [];; mret tt
     else mret tt);;
    onCleanup unsubscribe);;
  let record : JsFunction := λ _,
    p ← call controller "record" []; mret (async_await p) in
  let refresh : JsFunction := λ _,
    p ← call controller "fetch" []; mret (async_await p) in
  mret [("views", views); ("uniqueVisitors", uniqueVisitors);
        ("status", status); ("error", error);
        ("record", record); ("refresh", refresh)].

Definition createFeedback (options : jsval) : Create Returned :=
  '(status, setStatus) ← createSignal (JStr "idle");
  '(message, setMessage) ← createSignal JNull;
  '(error, setError) ← createSignal JNull;
  let config := resolveConfig options in
  controller ← new "FeedbackController" [config];
  createEffect (
    unsubscribe ← subscribe controller (λ state,
      setStatus state.["status"];;
      setMessage state.["message"];;
      setError state.["error"]);
    onCleanup unsubscribe);;
  let submit : JsFunction := λ args,
    p ← call controller "submit" [arg 0 args; arg 1 args; arg 2 args];
    mret (async_await p) in
  let reset : JsFunction := λ _,
    call controller "reset" [];; mret JUndefined in
  mret [("status", status); ("message", message); ("error", error);
        ("submit", submit); ("reset", reset)].

Definition createPoll (options : jsval) : Create Returned :=
  '(poll, setPoll) ← createSignal JNull;
  '(status, setStatus) ← createSignal (JStr "idle");
  '(error, setError) ← createSignal JNull;
  let config := resolveConfig options in
  controller ← new "PollController" [config; options.["slug"]];
  createEffect (
    unsubscribe ← subscribe controller (λ state,
      setPoll state.["poll"];;
      setStatus state.["status"];;
      setError state.["error"]);
    (if strict_ne_false options.["autoFetch"]
     then call controller "fetch" [];; mret tt
     else mret tt);;
    onCleanup unsubscribe);;
  let vote : JsFunction := λ args,
    p ← call controller "vote" [arg 0 args]; mret (async_await p) in
  let refresh : JsFunction := λ _,
    p ← call controller "fetch" []; mret (async_await p) in
  let hasVoted : JsFunction := λ _, get controller "hasVoted" in
  mret [("poll", poll); ("status", status); ("error", error);
        ("vote", vote); ("hasVoted", hasVoted); ("refresh", refresh)].

Definition createAnnouncements (options : jsval) : Create Returned :=
  '(announcements, setAnnouncements) ← createSignal (JArr []);
  '(status, setStatus) ← createSignal (JStr "idle");
  '(error, setError) ← createSignal JNull;
  let config := resolveConfig options in
  controller ← new "AnnouncementsController" [config];
  createEffect (
    unsubscribe ← subscribe controller (λ state,
      (* Only show non-dismissed announcements *)
      visible ← get_in_listener controller "getVisibleAnnouncements";
      setAnnouncements visible;;
      setStatus state.["status"];;
      setError state.["error"]);
    (if strict_ne_false options.["autoFetch"]
     then call controller "fetch" [];; mret tt
     else mret tt);;
    onCleanup unsubscribe);;
  let dismiss : JsFunction := λ args,
    p ← call controller "dismiss" [arg 0 args]; mret (async_await p) in
  let refresh : JsFunction := λ _,
    p ← call controller "fetch" []; mret (async_await p) in
  mret [("announcements", announcements); ("status", status); ("error", error);
        ("dismiss", dismiss); ("refresh", refresh)].

(** ** A primitive in use *)

Inductive primitive : Type :=
| Subscribe | Form | Reactions | Comments | Waitlist
| Views | Feedback | Poll | Announcements.

#[global] Instance primitive_eq_dec : EqDecision primitive.
Proof. solve_decision. Defined.

Definition create (p : primitive) : jsval → Create Returned :=
  match p with
  | Subscribe => createSubscribe
  | Form => createForm
  | Reactions => createReactions
  | Comments => createComments
  | Waitlist => createWaitlist
  | Views => createViews
  | Feedback => createFeedback
  | Poll => createPoll
  | Announcements => createAnnouncements
  end.

(** What a call of a primitive leaves behind: the returned object, the
    effects Solid will run, and the world they live in. *)
Record Instance : Type := {
  members : Returned;
  effects : list (M unit);
  world : World
}.

Definition instantiate (prog : Create Returned) : Instance :=
  {| members := (prog empty_world).1.1;
     effects := (prog empty_world).1.2;
     world := (prog empty_world).2 |}.

Fixpoint member (name : string) (r : Returned) : option JsFunction :=
  match r with
  | [] => None
  | (n, f) :: r' => if String.eqb name n then Some f else member name r'
  end.

(** [r.name(args)] *)
Definition use (r : Returned) (name : string) (args : list jsval) : M jsval :=
  λ w, match member name r with
       | Some f => f args w
       | None => (JUndefined, w)
       end.

(** [r.name()] for an accessor *)
Definition read (r : Returned) (name : string) (w : World) : jsval :=
  (use r name [] w).1.

(** What can happen to an instance: Solid runs its effect (on mount, and
    again whenever it re-runs it), Solid disposes of it, the caller uses a
    member of the returned object, or the controller acts on its own. *)
Inductive event : Type :=
| Run
| Dispose
| Use (name : string) (args : list jsval)
| Async (acts : list (activity CS)).

Definition run_effects (fx : list (M unit)) (w : World) : World :=
  foldl (λ w' fn, (fn w').2) w fx.

Definition step (i : Instance) (w : World) (e : event) : World :=
  match e with
  | Run => run_effects (effects i) (run_cleanups w)
  | Dispose => run_cleanups w
  | Use name args => (use (members i) name args w).2
  | Async acts => perform 0 acts w
  end.

Definition exec (i : Instance) (evs : list event) : World :=
  foldl (step i) (world i) evs.

(** The entries a step adds to the log. *)
Definition added (w w' : World) : list entry := drop (length (log w)) (log w').

(** The states among [acts], in the order they are pushed. *)
Definition pushed (acts : list (activity CS)) : list jsval :=
  omap (λ a, match a with Notify s => Some s | Become _ => None end) acts.

(** The deliveries that [acts] of controller [r] cause, given the
    listeners held. *)
Definition deliveries (r : nat) (ss : list Subscription) (acts : list (activity CS))
  : list entry :=
  s ← pushed acts;
  (λ sub, Notified (sub_id sub) s) <$> filter (λ sub, sub_ctl sub = r) ss.

(** ** The anatomy of a primitive *)

(** The signals a primitive creates, read off its [createSignal] lines:
    the name under which the accessor is returned and the initial value,
    in creation order. *)
Definition signals (p : primitive) : list (string * jsval) :=
  match p with
  | Subscribe | Form | Feedback =>
      [("status", JStr "idle"); ("message", JNull); ("error", JNull)]
  | Reactions =>
      [("counts", JObj []); ("userReactions", JArr []);
       ("status", JStr "idle"); ("error", JNull)]
  | Comments => [("comments", JArr []); ("status", JStr "idle"); ("error", JNull)]
  | Waitlist =>
      [("status", JStr "idle"); ("message", JNull); ("position", JNull);
       ("error", JNull)]
  | Views =>
      [("views", JNum 0); ("uniqueVisitors", JNum 0);
       ("status", JStr "idle"); ("error", JNull)]
  | Poll => [("poll", JNull); ("status", JStr "idle"); ("error", JNull)]
  | Announcements =>
      [("announcements", JArr []); ("status", JStr "idle"); ("error", JNull)]
  end.

(** The accessor of the k-th signal. *)
Definition accessor (k : nat) : JsFunction :=
  λ _ w, (default JUndefined (cells w !! k), w).

(** In the spec's words: the primitives with a mount-time side effect,
    the option that requests it and the controller method it calls. *)
Definition spec_mount_option (p : primitive) : option (string * string) :=
  match p with
  | Reactions | Comments | Poll | Announcements => Some ("autoFetch", "fetch")
  | Views => Some ("autoRecord", "record")
  | Subscribe | Form | Waitlist | Feedback => None
  end.

(** The method called on mount, if any: the option is not [false]. *)
Definition auto (p : primitive) (options : jsval) : option string :=
  match spec_mount_option p with
  | Some (opt, m) => if strict_ne_false options.[opt] then Some m else None
  | None => None
  end.

Definition auto_call (m : option string) : M unit :=
  match m with
  | Some m => call 0 m [];; mret tt
  | None => mret tt
  end.

(** The common shape of the nine effects. *)
Definition effect_of (l : Listener) (m : option string) : M unit :=
  unsubscribe ← subscribe 0 l;
  auto_call m;;
  onCleanup unsubscribe.

(** What the listener of [p] stores in the signal [name] when the state
    [s] is pushed. *)
Definition stored (p : primitive) (name : string) (s : jsval) (cs : list Controller)
  : jsval :=
  match p with
  | Announcements =>
      if String.eqb name "announcements"
      then (get_in_listener 0 "getVisibleAnnouncements" cs []).1
      else s.[name]
  | _ => s.[name]
  end.

(** The three kinds of member a returned object has. *)
Inductive member_kind : JsFunction → Prop :=
| is_accessor k : member_kind (accessor k)
| is_action m (pick : list jsval → list jsval) (wrap : jsval → jsval) :
    member_kind (λ args, p ← call 0 m (pick args); mret (wrap p))
| is_getter g : member_kind (λ _, get 0 g).

(** The subscription behind an unsubscribe function. *)
Definition held (l : Listener) (u : Unsubscribe) : Subscription :=
  {| sub_ctl := 0; sub_id := unsub_id u; sub_listener := l |}.

(** ** Reachable worlds *)

(** What creation leaves behind, for a primitive [p] whose listener is [l]:
    one effect of the common shape, a world with the initial signals and
    one controller, and a returned object of accessors and delegating
    methods. *)
Record Wired (p : primitive) (o : jsval) (l : Listener) : Prop := {
  wired_effects :
    effects (instantiate (create p o)) = [effect_of l (auto p o)];
  wired_world :
    ∃ cls args,
      world (instantiate (create p o)) =
      {| cells := (signals p).*2;
         ctls := [{| class := cls; ctor_args := args;
                     internals := construct cls args |}];
         subs := []; fresh := 0; cleanups := [];
         log := [Constructed cls args] |};
  wired_members :
    Forall (λ nf, member_kind nf.2) (members (instantiate (create p o)));
  wired_accessors :
    ∀ k name v, signals p !! k = Some (name, v) →
      member name (members (instantiate (create p o))) = Some (accessor k);
  wired_listener :
    ∀ s cs c, length c = length (signals p) →
      (l s cs c).2 = (λ nv, stored p nv.1 s cs) <$> signals p
}.

(** What holds of every world an instance reaches: the signals and the
    controller stay in place, and the listeners held are exactly those
    whose unsubscribe function is registered for cleanup, at most one. *)
Record Inv (l : Listener) (n : nat) (w : World) : Prop := {
  inv_cells : length (cells w) = n;
  inv_ctls : length (ctls w) = 1;
  inv_subs : subs w = held l <$> cleanups w;
  inv_one : length (cleanups w) ≤ 1
}.

Definition is_constructed (e : entry) : bool :=
  match e with Constructed _ _ => true | _ => false end.

Definition is_subscribed (e : entry) : bool :=
  match e with Subscribed _ _ => true | _ => false end.

Definition is_invoked (e : entry) : bool :=
  match e with Invoked _ _ _ => true | _ => false end.

(** [w'] comes after [w]: the log has grown, no controller was
    constructed, and the signals have changed only if a listener was
    called. *)
Definition follows (w w' : World) : Prop :=
  ∃ es, log w' = log w ++ es ∧
        Forall (λ e, is_constructed e = false) es ∧
        ((∀ id s, Notified id s ∉ es) → cells w' = cells w).

(** In the spec's words: the defaults of the accessors, by name. *)
Definition spec_defaults : list (string * jsval) :=
  [("status", JStr "idle"); ("message", JNull); ("error", JNull);
   ("counts", JObj []); ("userReactions", JArr []); ("comments", JArr []);
   ("announcements", JArr []); ("poll", JNull); ("position", JNull);
   ("views", JNum 0); ("uniqueVisitors", JNum 0)].

(** In the spec's words: how a returned method delegates to the
    controller. *)
Inductive delegation : Type :=
| Awaited (m : string) (arity : nat)  (* async: awaits controller.m(args) *)
| Called (m : string)                 (* calls controller.m() *)
| Returns (g : string).               (* returns controller.g() *)

Definition arity (d : delegation) : nat :=
  match d with
  | Awaited _ k => k
  | Called _ | Returns _ => 0
  end.

Definition spec_delegate (d : delegation) : JsFunction :=
  λ args,
    match d with
    | Awaited m _ => p ← call 0 m args; mret (async_await p)
    | Called m => call 0 m args;; mret JUndefined
    | Returns g => get 0 g
    end.

(** In the spec's words: the methods of each primitive and the controller
    method behind each, in the order they are returned. *)
Definition spec_delegations (p : primitive) : list (string * delegation) :=
  match p with
  | Subscribe => [("subscribe", Awaited "submit" 1); ("reset", Called "reset")]
  | Form => [("submit", Awaited "submit" 1); ("reset", Called "reset")]
  | Reactions =>
      [("addReaction", Awaited "add" 1); ("removeReaction", Awaited "remove" 1);
       ("refresh", Awaited "fetch" 0)]
  | Comments => [("postComment", Awaited "post" 3); ("refresh", Awaited "fetch" 0)]
  | Waitlist => [("join", Awaited "join" 2); ("reset", Called "reset")]
  | Views => [("record", Awaited "record" 0); ("refresh", Awaited "fetch" 0)]
  | Feedback => [("submit", Awaited "submit" 3); ("reset", Called "reset")]
  | Poll =>
      [("vote", Awaited "vote" 1); ("hasVoted", Returns "hasVoted");
       ("refresh", Awaited "fetch" 0)]
  | Announcements => [("dismiss", Awaited "dismiss" 1); ("refresh", Awaited "fetch" 0)]
  end.

(** ** The module *)

(** The export declarations of a module. *)
Inductive declaration : Type :=
| ReExportTypes (names : list string) (from : string)
| ReExport (names : list string) (from : string)
| ExportInterface (name : string)
| ExportFunction (name : string) (p : primitive).

(** [src/index.ts] *)
Definition index_ts : list declaration :=
  [ ReExportTypes
      ["JamWidgetsConfig"; "SubscribeState"; "FormState"; "ReactionsState";
       "CommentsState"; "WaitlistState"; "ViewCountsState"; "FeedbackState";
       "PollState"; "AnnouncementsState"; "Comment"; "Announcement";
       "PollWithResults"; "FeedbackType"; "ReactionCounts"; "JamwidgetsPost";
       "SeriphPost"; "FetchPostsOptions"; "FetchPostOptions"; "ControllerStatus"]
      "@jamwidgets/core";
    ReExport
      ["fetchPosts"; "fetchPost"; "getConfigFromMeta"; "resolveConfig";
       "DEFAULT_ENDPOINT"; "API_PATH"]
      "@jamwidgets/core";
    ExportInterface "CreateSubscribeOptions";
    ExportInterface "CreateSubscribeReturn";
    ExportFunction "createSubscribe" Subscribe;
    ExportInterface "CreateFormOptions";
    ExportInterface "CreateFormReturn";
    ExportFunction "createForm" Form;
    ExportInterface "CreateReactionsOptions";
    ExportInterface "CreateReactionsReturn";
    ExportFunction "createReactions" Reactions;
    ExportInterface "CreateCommentsOptions";
    ExportInterface "CreateCommentsReturn";
    ExportFunction "createComments" Comments;
    ExportInterface "CreateWaitlistOptions";
    ExportInterface "CreateWaitlistReturn";
    ExportFunction "createWaitlist" Waitlist;
    ExportInterface "CreateViewsOptions";
    ExportInterface "CreateViewsReturn";
    ExportFunction "createViews" Views;
    ExportInterface "CreateFeedbackOptions";
    ExportInterface "CreateFeedbackReturn";
    ExportFunction "createFeedback" Feedback;
    ExportInterface "CreatePollOptions";
    ExportInterface "CreatePollReturn";
    ExportFunction "createPoll" Poll;
    ExportInterface "CreateAnnouncementsOptions";
    ExportInterface "CreateAnnouncementsReturn";
    ExportFunction "createAnnouncements" Announcements ].

(** [dist/index.js]: the types are erased. *)
Definition index_js : list declaration :=
  [ ReExport
      ["fetchPosts"; "fetchPost"; "getConfigFromMeta"; "resolveConfig";
       "DEFAULT_ENDPOINT"; "API_PATH"]
      "@jamwidgets/core";
    ExportFunction "createSubscribe" Subscribe;
    ExportFunction "createForm" Form;
    ExportFunction "createReactions" Reactions;
    ExportFunction "createComments" Comments;
    ExportFunction "createWaitlist" Waitlist;
    ExportFunction "createViews" Views;
    ExportFunction "createFeedback" Feedback;
    ExportFunction "createPoll" Poll;
    ExportFunction "createAnnouncements" Announcements ].

(** What an exported name is bound to. *)
Inductive binding : Type :=
| OfCore (e : Export)
| OwnInterface
| OwnFunction (f : jsval → Create Returned).

(** The binding of [name] in the module with declarations [ds]: a
    re-exported name is bound to whatever the source module binds it to. *)
Fixpoint resolve (ds : list declaration) (name : string) : option binding :=
  match ds with
  | [] => None
  | ReExportTypes names from :: ds' | ReExport names from :: ds' =>
      if bool_decide (name ∈ names)
      then (if String.eqb from "@jamwidgets/core"
            then OfCore <$> namespace name else None)
      else resolve ds' name
  | ExportInterface n :: ds' =>
      if String.eqb name n then Some OwnInterface else resolve ds' name
  | ExportFunction n p :: ds' =>
      if String.eqb name n then Some (OwnFunction (create p)) else resolve ds' name
  end.

(** In the spec's words: the names the package passes on from the core
    library. *)
Definition core_values : list string :=
  ["fetchPosts"; "fetchPost"; "getConfigFromMeta"; "resolveConfig";
   "DEFAULT_ENDPOINT"; "API_PATH"].

Definition core_types : list string :=
  ["JamWidgetsConfig"; "SubscribeState"; "FormState"; "ReactionsState";
   "CommentsState"; "WaitlistState"; "ViewCountsState"; "FeedbackState";
   "PollState"; "AnnouncementsState"; "Comment"; "Announcement";
   "PollWithResults"; "FeedbackType"; "ReactionCounts"; "JamwidgetsPost";
   "SeriphPost"; "FetchPostsOptions"; "FetchPostOptions"; "ControllerStatus"].

(** ** Further anatomy *)

(** The controller class a primitive instantiates, read off its [new] line. *)
Definition controller_class (p : primitive) : string :=
  match p with
  | Subscribe => "SubscribeController"
  | Form => "FormController"
  | Reactions => "ReactionsController"
  | Comments => "CommentsController"
  | Waitlist => "WaitlistController"
  | Views => "ViewCountsController"
  | Feedback => "FeedbackController"
  | Poll => "PollController"
  | Announcements => "AnnouncementsController"
  end.

(** The option passed to the constructor after the configuration. *)
Definition identifying_option (p : primitive) : option string :=
  match p with
  | Form => Some "formSlug"
  | Reactions | Comments => Some "contentId"
  | Views => Some "pageId"
  | Poll => Some "slug"
  | Subscribe | Waitlist | Feedback | Announcements => None
  end.

Definition controller_args (p : primitive) (options : jsval) : list jsval :=
  resolveConfig options ::
  match identifying_option p with
  | Some k => [options.[k]]
  | None => []
  end.

(** The world holds one controller, of class [cls] and constructed with
    [args]. *)
Definition sole_controller (cls : string) (args : list jsval) (w : World) : Prop :=
  ∃ c, ctls w = [{| class := cls; ctor_args := args; internals := c |}].

(** The subscription held, if any, by its id. *)
Definition holding (w : World) : option nat := sub_id <$> head (subs w).

(** The life cycle of the subscriptions, as an acceptor of the log after
    the construction: [h] is the subscription held and [next] the id the
    next one gets.  A subscription starts only while none is held and
    takes the next id; only the one held is notified and ended; and no
    further controller is constructed. *)
Fixpoint lifecycle (h : option nat) (next : nat) (es : list entry)
  : option (option nat * nat) :=
  match es with
  | [] => Some (h, next)
  | Constructed _ _ :: _ => None
  | Subscribed r id :: es' =>
      if bool_decide (r = 0 ∧ h = None ∧ id = next)
      then lifecycle (Some id) (S next) es' else None
  | Invoked r _ _ :: es' =>
      if bool_decide (r = 0) then lifecycle h next es' else None
  | Notified id _ :: es' =>
      if bool_decide (h = Some id) then lifecycle h next es' else None
  | Unsubscribed id :: es' =>
      if bool_decide (h = Some id) then lifecycle None next es' else None
  end.

(** The parameters a function with [k] declared parameters binds when it
    is called with [args]: missing ones are [undefined], further ones are
    dropped. *)
Definition params (k : nat) (args : list jsval) : list jsval :=
  (λ j, arg j args) <$> seq 0 k.

(** What [async (...) => { await p; }] returns for each way [p] settles. *)
Definition is_rejected (v : jsval) : bool :=
  match v with JPromise false _ => true | _ => false end.


(** The declarations that survive compilation to JavaScript. *)
Definition erased (d : declaration) : bool :=
  match d with
  | ReExportTypes _ _ | ExportInterface _ => true
  | ReExport _ _ | ExportFunction _ _ => false
  end.

Definition compile (ds : list declaration) : list declaration :=
  filter (λ d, erased d = false) ds.

(** The names a module exports as types only, and as values. *)
Definition type_names (ds : list declaration) : list string :=
  d ← ds;
  match d with
  | ReExportTypes names _ => names
  | ExportInterface n => [n]
  | ReExport _ _ | ExportFunction _ _ => []
  end.

Definition value_names (ds : list declaration) : list string :=
  d ← ds;
  match d with
  | ReExport names _ => names
  | ExportFunction n _ => [n]
  | ReExportTypes _ _ | ExportInterface _ => []
  end.

End Solid.

(** ** A small core to run the primitives against *)

Module Toy.

(** A controller keeps its state object and the ids it has dismissed;
    [fetch] loads two announcements, [dismiss] adds an id, and every
    method pushes the state.  Promises are fulfilled at once. *)
Definition announcement (id : Z) : jsval := JObj [("id", JNum id)].

Definition state_of (loaded : bool) : jsval :=
  JObj [("announcements", if loaded then JArr [announcement 1; announcement 2] else JArr []);
        ("status", JStr (if loaded then "success" else "idle"));
        ("error", JNull)].

Definition is_visible (dismissed : list Z) (a : jsval) : bool :=
  match a.["id"] with
  | JNum id => negb (bool_decide (id ∈ dismissed))
  | _ => true
  end.

Definition visible (c : bool * list Z) : jsval :=
  match (state_of c.1).["announcements"] with
  | JArr l => JArr (filter (λ a, is_visible c.2 a = true) l)
  | v => v
  end.

Definition core : Core := {|
  CS := bool * list Z;
  resolveConfig := λ options, options;
  construct := λ _ _, (false, []);
  method := λ _ m args c,
    if String.eqb m "fetch" then
      ([Become (true, c.2); Notify (state_of true)], JPromise true JUndefined)
    else if String.eqb m "dismiss" then
      match arg 0 args with
      | JNum id => ([Become (c.1, id :: c.2); Notify (state_of c.1)],
                    JPromise true JUndefined)
      | _ => ([], JPromise false (JStr "bad id"))
      end
    else ([], JUndefined);
  getter := λ _ g c,
    if String.eqb g "getVisibleAnnouncements" then visible c else JBool false;
  Export := string;
  namespace := λ n, Some n
|}.

(** Three instances to run. *)
Definition subscribe_form : Instance :=
  instantiate (core := core) (create Subscribe (JObj [])).
Definition board : Instance :=
  instantiate (core := core) (create Announcements (JObj [])).
Definition silent_reactions : Instance :=
  instantiate (core := core) (create Reactions (JObj [("autoFetch", JBool false)])).

End Toy.

(** * Properties *)

Section Facts.
Context `{core : Core}.

(** ** What a controller's activity can and cannot touch *)

Lemma foldl_invoke_frame s l w :
  let w' := foldl (invoke s) w l in
  ctls w' = ctls w ∧ subs w' = subs w ∧ fresh w' = fresh w ∧
  cleanups w' = cleanups w ∧
  log w' = log w ++ ((λ sub, Notified (sub_id sub) s) <$> l).
Proof.
  revert w. induction l as [|sub l IH]; intros w; simpl.
  - by rewrite app_nil_r.
  - destruct (IH (invoke s w sub)) as (-> & -> & -> & -> & ->).
    simpl. by rewrite <- app_assoc.
Qed.

Lemma notify_frame r s w :
  ctls (notify r s w) = ctls w ∧ subs (notify r s w) = subs w ∧
  fresh (notify r s w) = fresh w ∧ cleanups (notify r s w) = cleanups w ∧
  log (notify r s w) = log w ++ deliveries r (subs w) [Notify s].
Proof.
  unfold notify, deliveries. simpl. rewrite app_nil_r.
  apply foldl_invoke_frame.
Qed.

Lemma perform_frame r acts w :
  subs (perform r acts w) = subs w ∧ fresh (perform r acts w) = fresh w ∧
  cleanups (perform r acts w) = cleanups w ∧
  length (ctls (perform r acts w)) = length (ctls w) ∧
  log (perform r acts w) = log w ++ deliveries r (subs w) acts.
Proof.
  unfold perform. revert w. induction acts as [|a acts IH]; intros w; simpl.
  - by rewrite app_nil_r.
  - destruct (IH (act r w a)) as (-> & -> & -> & -> & ->).
    destruct a as [c|s]; simpl.
    + by rewrite length_alter.
    + destruct (notify_frame r s w) as (-> & -> & -> & -> & ->).
      unfold deliveries. simpl. by rewrite app_nil_r, <- app_assoc.
Qed.

Lemma deliveries_notified r ss acts e :
  e ∈ deliveries r ss acts → ∃ id s, e = Notified id s.
Proof.
  unfold deliveries. intros He. apply list_elem_of_bind in He as (s & He & _).
  apply list_elem_of_fmap in He as (sub & -> & _). eauto.
Qed.

Lemma deliveries_silent r ss acts :
  (∀ id s, Notified id s ∉ deliveries r ss acts) → deliveries r ss acts = [].
Proof.
  intros H. destruct (deliveries r ss acts) as [|e l] eqn:E; [done|].
  assert (He : e ∈ deliveries r ss acts) by (rewrite E; left).
  destruct (deliveries_notified _ _ _ _ He) as (id & s & ->).
  exfalso. apply (H id s). left.
Qed.

Lemma deliveries_cons r ss a acts :
  deliveries r ss (a :: acts) = deliveries r ss [a] ++ deliveries r ss acts.
Proof. unfold deliveries. destruct a; simpl; [done|]. by rewrite app_nil_r. Qed.

Lemma deliveries_app r ss acts acts' :
  deliveries r ss (acts ++ acts') = deliveries r ss acts ++ deliveries r ss acts'.
Proof.
  induction acts as [|a acts IH]; [done|].
  simpl. rewrite deliveries_cons, (deliveries_cons _ _ a acts), IH.
  by rewrite app_assoc.
Qed.

(** Without a delivery the signals keep their values. *)
Lemma perform_silent r acts w :
  deliveries r (subs w) acts = [] → cells (perform r acts w) = cells w.
Proof.
  unfold perform. revert w. induction acts as [|a acts IH]; intros w H; [done|].
  rewrite deliveries_cons in H. apply app_eq_nil in H as [Ha H].
  simpl. rewrite IH.
  - destruct a as [c|s]; [done|]. simpl. unfold notify.
    unfold deliveries in Ha. simpl in Ha. rewrite app_nil_r in Ha.
    apply fmap_nil_inv in Ha. by rewrite Ha.
  - destruct a as [c|s]; simpl; [done|].
    by destruct (notify_frame r s w) as (_ & -> & _).
Qed.

Lemma foldl_invoke_length s l w n :
  (∀ sub, sub ∈ l → ∀ cs c, length c = n → length (sub_listener sub s cs c).2 = n) →
  length (cells w) = n → length (cells (foldl (invoke s) w l)) = n.
Proof.
  revert w. induction l as [|sub l IH]; intros w Hl Hw; [done|].
  simpl. apply IH.
  - intros sub' Hin. apply Hl. by right.
  - simpl. apply Hl; [left | done].
Qed.

Lemma perform_length r acts w n :
  (∀ sub, sub ∈ subs w →
     ∀ s cs c, length c = n → length (sub_listener sub s cs c).2 = n) →
  length (cells w) = n → length (cells (perform r acts w)) = n.
Proof.
  unfold perform. revert w. induction acts as [|a acts IH]; intros w Hl Hw; [done|].
  simpl. apply IH.
  - destruct a as [c|s]; simpl; [done|].
    by destruct (notify_frame r s w) as (_ & -> & _).
  - destruct a as [c|s]; simpl; [done|]. unfold notify.
    apply foldl_invoke_length; [|done].
    intros sub Hin cs c Hc. apply Hl; [|done].
    by apply list_elem_of_filter in Hin as [_ Hin].
Qed.

(** ** Each primitive has the common anatomy *)


Lemma create_wired p o : ∃ l, Wired p o l.
Proof.
  destruct p; eexists; split.
  all: try (unfold auto; simpl;
            first [reflexivity | destruct (strict_ne_false _); reflexivity]).
  all: try (do 2 eexists; reflexivity).
  all: try (repeat constructor).
  all: try (intros [|[|[|[|k]]]] name v H; simpl in H; inversion H; reflexivity).
  all: intros s cs c Hc; simpl in Hc;
    destruct c as [|c0 [|c1 [|c2 [|c3 [|c4 c]]]]]; try discriminate Hc;
    try reflexivity.
  unfold mbind, L_bind. simpl. unfold get_in_listener. by destruct (cs !! 0).
Qed.

(** ** The worlds an instance can reach *)


Lemma the_controller w : length (ctls w) = 1 → ∃ o, ctls w !! 0 = Some o.
Proof. destruct (ctls w) as [|o [|]]; try done. by exists o. Qed.

Lemma call_world o r m args w :
  ctls w !! r = Some o →
  call r m args w =
  ((method (class o) m args (internals o)).2,
   perform r (method (class o) m args (internals o)).1 (note (Invoked r m args) w)).
Proof. intros H. unfold call. by rewrite H. Qed.

Lemma subscribe_world o r l w :
  ctls w !! r = Some o →
  subscribe r l w =
  ({| unsub_id := fresh w |},
   perform r (method (class o) "subscribe" [] (internals o)).1
     (note (Subscribed r (fresh w))
        (with_fresh (S (fresh w))
           (with_subs (subs w ++ [{| sub_ctl := r; sub_id := fresh w;
                                     sub_listener := l |}]) w)))).
Proof. intros H. unfold subscribe. by rewrite H. Qed.

Section Reachable.
Variables (l : Listener) (n : nat).
Hypothesis l_length : ∀ s cs c, length c = n → length (l s cs c).2 = n.

Lemma inv_listeners w :
  Inv l n w →
  ∀ sub, sub ∈ subs w →
    ∀ s cs c, length c = n → length (sub_listener sub s cs c).2 = n.
Proof.
  intros [_ _ Hs _] sub Hin. rewrite Hs in Hin.
  apply list_elem_of_fmap in Hin as (u & -> & _). apply l_length.
Qed.

Lemma inv_perform acts w : Inv l n w → Inv l n (perform 0 acts w).
Proof.
  intros HI. destruct (perform_frame 0 acts w) as (Hs & _ & Hc & Hk & _).
  split.
  - apply perform_length; [by apply inv_listeners | by destruct HI].
  - rewrite Hk. by destruct HI.
  - rewrite Hs, Hc. by destruct HI.
  - rewrite Hc. by destruct HI.
Qed.

Lemma inv_call m args w : Inv l n w → Inv l n (call 0 m args w).2.
Proof.
  intros HI. destruct (the_controller w) as [o Ho]; [by destruct HI|].
  rewrite (call_world o); [|done]. simpl. apply inv_perform.
  by destruct HI.
Qed.

Lemma inv_member f args w : member_kind f → Inv l n w → Inv l n (f args w).2.
Proof.
  intros [k|m pick wrap|g] HI.
  - done.
  - apply (inv_call m (pick args) w HI).
  - unfold get. by destruct (ctls w !! 0).
Qed.

Lemma filter_held u :
  filter (λ sub, sub_id sub ≠ unsub_id u) [held l u] = [].
Proof. rewrite filter_cons_False; [done|]. simpl. by intros H. Qed.

Lemma inv_cleanups w :
  Inv l n w →
  Inv l n (run_cleanups w) ∧ subs (run_cleanups w) = [] ∧
  cleanups (run_cleanups w) = [] ∧ cells (run_cleanups w) = cells w ∧
  ctls (run_cleanups w) = ctls w ∧ fresh (run_cleanups w) = fresh w ∧
  log (run_cleanups w) = log w ++ ((λ u, Unsubscribed (unsub_id u)) <$> cleanups w).
Proof.
  intros [Hc Hk Hs H1]. unfold run_cleanups.
  destruct (cleanups w) as [|u [|]] eqn:E; simpl in *; [| |lia].
  - rewrite app_nil_r. repeat split; simpl; try done; lia.
  - assert (Hf : subs (unsubscribe_call u w) = []).
    { unfold unsubscribe_call. simpl. rewrite Hs. apply filter_held. }
    repeat split; simpl; try done; lia.
Qed.

(** The effect body, run in a world without subscription, step by step:
    the world after [subscribe], after the automatic call, and at the end. *)
Lemma effect_of_world m w :
  (effect_of l m w).2 =
  with_cleanups
    (cleanups (auto_call m (subscribe 0 l w).2).2 ++ [(subscribe 0 l w).1])
    (auto_call m (subscribe 0 l w).2).2.
Proof. done. Qed.

Lemma subscribe_frame o w :
  ctls w !! 0 = Some o →
  (subscribe 0 l w).1 = {| unsub_id := fresh w |} ∧
  subs (subscribe 0 l w).2 = subs w ++ [held l {| unsub_id := fresh w |}] ∧
  cleanups (subscribe 0 l w).2 = cleanups w ∧
  length (ctls (subscribe 0 l w).2) = length (ctls w) ∧
  log (subscribe 0 l w).2 =
    log w ++ Subscribed 0 (fresh w) ::
      deliveries 0 (subs w ++ [held l {| unsub_id := fresh w |}])
        (method (class o) "subscribe" [] (internals o)).1.
Proof.
  intros Ho. rewrite (subscribe_world o); [|done]. simpl.
  destruct (perform_frame 0 (method (class o) "subscribe" [] (internals o)).1
    (note (Subscribed 0 (fresh w))
       (with_fresh (S (fresh w))
          (with_subs (subs w ++ [{| sub_ctl := 0; sub_id := fresh w;
                                    sub_listener := l |}]) w))))
    as (-> & _ & -> & -> & ->).
  simpl. by rewrite <- app_assoc.
Qed.

Lemma subscribe_length o w :
  ctls w !! 0 = Some o → subs w = [] → length (cells w) = n →
  length (cells (subscribe 0 l w).2) = n.
Proof.
  intros Ho Hs Hc. rewrite (subscribe_world o); [|done]. simpl.
  apply perform_length; [|done]. simpl. rewrite Hs. simpl.
  intros sub ->%list_elem_of_singleton. apply l_length.
Qed.

Lemma call_frame o m args w :
  ctls w !! 0 = Some o →
  subs (call 0 m args w).2 = subs w ∧
  cleanups (call 0 m args w).2 = cleanups w ∧
  length (ctls (call 0 m args w).2) = length (ctls w) ∧
  log (call 0 m args w).2 =
    log w ++ Invoked 0 m args ::
      deliveries 0 (subs w) (method (class o) m args (internals o)).1.
Proof.
  intros Ho. rewrite (call_world o); [|done]. simpl.
  destruct (perform_frame 0 (method (class o) m args (internals o)).1
    (note (Invoked 0 m args) w)) as (-> & _ & -> & -> & ->).
  simpl. by rewrite <- app_assoc.
Qed.

Lemma call_length o m args w u :
  ctls w !! 0 = Some o → subs w = [held l u] → length (cells w) = n →
  length (cells (call 0 m args w).2) = n.
Proof.
  intros Ho Hs Hc. rewrite (call_world o); [|done]. simpl.
  apply perform_length; [|done]. simpl. rewrite Hs.
  intros sub ->%list_elem_of_singleton. apply l_length.
Qed.

Lemma inv_effect m w :
  Inv l n w → cleanups w = [] →
  Inv l n (effect_of l m w).2 ∧
  cleanups (effect_of l m w).2 = [{| unsub_id := fresh w |}].
Proof.
  intros [Hc Hk Hs _] Hcl. rewrite Hcl in Hs. simpl in Hs.
  destruct (the_controller w Hk) as [o Ho].
  rewrite effect_of_world.
  destruct (subscribe_frame o w Ho) as (Eu & Es1 & Ec1 & Ek1 & _).
  pose proof (subscribe_length o w Ho Hs Hc) as El1.
  rewrite Eu, Hs in *. rewrite Hcl in Ec1. simpl in Es1.
  set (w1 := (subscribe 0 l w).2) in *.
  assert (Hk1 : length (ctls w1) = 1) by congruence.
  destruct m as [m|]; simpl.
  - destruct (the_controller w1 Hk1) as [o1 Ho1].
    destruct (call_frame o1 m [] w1 Ho1) as (Es2 & Ec2 & Ek2 & _).
    pose proof (call_length o1 m [] w1 _ Ho1 Es1 El1) as El2.
    unfold mbind, M_bind. simpl. rewrite Ec2, Ec1. simpl.
    split; [|done]. split; simpl; try done; try congruence; try lia.
  - unfold mret, M_ret. simpl. rewrite Ec1. simpl.
    split; [|done]. split; simpl; try done; try lia.
Qed.

End Reachable.

(** ** What a step adds to the log *)


Lemma follows_refl w : follows w w.
Proof. exists []. by rewrite app_nil_r. Qed.

Lemma follows_trans w1 w2 w3 : follows w1 w2 → follows w2 w3 → follows w1 w3.
Proof.
  intros (es1 & E1 & F1 & C1) (es2 & E2 & F2 & C2). exists (es1 ++ es2).
  split; [by rewrite E2, E1, app_assoc|]. split; [by apply Forall_app|].
  intros H. rewrite C2, C1; [done| |].
  - intros id s Hin. apply (H id s), elem_of_app. by left.
  - intros id s Hin. apply (H id s), elem_of_app. by right.
Qed.

Lemma follows_added w w' es :
  log w' = log w ++ es → added w w' = es.
Proof. intros E. unfold added. by rewrite E, drop_app_length. Qed.

Lemma deliveries_not_constructed r ss acts :
  Forall (λ e, is_constructed e = false) (deliveries r ss acts).
Proof.
  apply Forall_forall. intros e He.
  by destruct (deliveries_notified _ _ _ _ He) as (id & s & ->).
Qed.

Lemma follows_perform r acts w : follows w (perform r acts w).
Proof.
  exists (deliveries r (subs w) acts).
  destruct (perform_frame r acts w) as (_ & _ & _ & _ & E).
  split; [done|]. split; [apply deliveries_not_constructed|].
  intros H. by apply perform_silent, deliveries_silent.
Qed.

Lemma follows_note e w : is_constructed e = false → follows w (note e w).
Proof. intros He. exists [e]. split; [done|]. split; [by repeat constructor|done]. Qed.

Lemma follows_call r m args w : follows w (call r m args w).2.
Proof.
  unfold call. destruct (ctls w !! r) as [o|]; [|apply follows_refl]. simpl.
  eapply follows_trans; [|apply follows_perform]. by apply follows_note.
Qed.

Lemma follows_member f args w : member_kind f → follows w (f args w).2.
Proof.
  intros [k|m pick wrap|g].
  - apply follows_refl.
  - apply (follows_call 0 m (pick args) w).
  - unfold get. destruct (ctls w !! 0); apply follows_refl.
Qed.

Lemma follows_unsubscribe u w : follows w (unsubscribe_call u w).
Proof. exists [Unsubscribed (unsub_id u)]. split; [done|]. split; [by repeat constructor|done]. Qed.

Lemma follows_cleanups w : follows w (run_cleanups w).
Proof.
  unfold run_cleanups.
  assert (H : follows w (foldr unsubscribe_call w (cleanups w))).
  { induction (cleanups w) as [|u us IH]; [apply follows_refl|].
    simpl. eapply follows_trans; [apply IH|apply follows_unsubscribe]. }
  destruct H as (es & E & F & C). by exists es.
Qed.

Lemma follows_subscribe r l w : follows w (subscribe r l w).2.
Proof.
  unfold subscribe. destruct (ctls w !! r) as [o|]; [|apply follows_refl]. simpl.
  eapply follows_trans; [|apply follows_perform].
  exists [Subscribed r (fresh w)]. split; [done|]. split; [by repeat constructor|done].
Qed.

Lemma follows_effect l m w : follows w (effect_of l m w).2.
Proof.
  rewrite effect_of_world.
  assert (H : follows w (auto_call m (subscribe 0 l w).2).2).
  { eapply follows_trans; [apply follows_subscribe|].
    destruct m as [m|]; [|apply follows_refl].
    apply (follows_call 0 m [] _). }
  destruct H as (es & E & F & C). by exists es.
Qed.

Lemma member_Forall (P : JsFunction → Prop) name r f :
  Forall (λ nf, P nf.2) r → member name r = Some f → P f.
Proof.
  induction 1 as [|[n g] r Hg _ IH]; [done|]. simpl.
  destruct (String.eqb name n); [|done]. by intros [= <-].
Qed.

(** ** Every reachable world *)

Section Wiring.
Context {p : primitive} {o : jsval} {l : Listener} (Hw : Wired p o l).

#[local] Abbreviation i := (instantiate (create p o)).
#[local] Abbreviation n := (length (signals p)).

Lemma wired_length s cs c : length c = n → length (l s cs c).2 = n.
Proof. intros Hc. rewrite (wired_listener _ _ _ Hw); [|done]. by rewrite length_fmap. Qed.

Lemma wired_start : Inv l n (world i).
Proof.
  destruct (wired_world _ _ _ Hw) as (cls & args & ->).
  split; simpl; try done; [by rewrite length_fmap | lia].
Qed.

Lemma step_run w : step i w Run = (effect_of l (auto p o) (run_cleanups w)).2.
Proof. unfold step. by rewrite (wired_effects _ _ _ Hw). Qed.

Lemma step_inv w e : Inv l n w → Inv l n (step i w e).
Proof.
  intros HI. destruct e as [| |name args|acts].
  - rewrite step_run.
    destruct (inv_cleanups l n w HI) as (HI' & _ & Hc & _).
    by apply (inv_effect l n wired_length).
  - by apply inv_cleanups.
  - unfold step, use. destruct (member name (members i)) as [f|] eqn:E; [|exact HI].
    apply (inv_member l n wired_length); [|done].
    apply (member_Forall _ _ _ _ (wired_members _ _ _ Hw) E).
  - by apply (inv_perform l n wired_length).
Qed.

Lemma step_follows w e : follows w (step i w e).
Proof.
  destruct e as [| |name args|acts].
  - rewrite step_run. eapply follows_trans; [apply follows_cleanups|apply follows_effect].
  - apply follows_cleanups.
  - unfold step, use. destruct (member name (members i)) as [f|] eqn:E;
      [|apply follows_refl].
    apply follows_member, (member_Forall _ _ _ _ (wired_members _ _ _ Hw) E).
  - apply follows_perform.
Qed.

Lemma steps_inv evs w : Inv l n w → Inv l n (foldl (step i) w evs).
Proof.
  revert w. induction evs as [|e evs IH]; intros w HI; [done|].
  simpl. by apply IH, step_inv.
Qed.

Lemma steps_follows evs w : follows w (foldl (step i) w evs).
Proof.
  revert w. induction evs as [|e evs IH]; intros w; [apply follows_refl|].
  simpl. eapply follows_trans; [apply step_follows|apply IH].
Qed.

Lemma exec_inv evs : Inv l n (exec i evs).
Proof. apply steps_inv, wired_start. Qed.

Lemma exec_follows evs : follows (world i) (exec i evs).
Proof. apply steps_follows. Qed.

(** *** A notification while the subscription is held *)

Lemma held_subscription w :
  Inv l n w → subs w ≠ [] → ∃ u, subs w = [held l u] ∧ cleanups w = [u].
Proof.
  intros [_ _ Hs H1] Hne. destruct (cleanups w) as [|u [|]]; simpl in *; [done| |lia].
  by exists u.
Qed.

Lemma filter_own u :
  filter (λ sub, sub_ctl sub = 0) [held l u] = [held l u].
Proof. by rewrite filter_cons_True. Qed.

Lemma notify_held u s w :
  subs w = [held l u] → notify 0 s w = invoke s w (held l u).
Proof. intros Hs. unfold notify. by rewrite Hs, filter_own. Qed.

Lemma notify_cells u s w :
  subs w = [held l u] → length (cells w) = n →
  cells (notify 0 s w) = (λ nv, stored p nv.1 s (ctls w)) <$> signals p.
Proof.
  intros Hs Hc. rewrite (notify_held u); [|done]. simpl.
  by apply (wired_listener _ _ _ Hw).
Qed.

Lemma read_accessor k name v w :
  signals p !! k = Some (name, v) →
  read (members i) name w = default JUndefined (cells w !! k).
Proof.
  intros Hk. unfold read, use.
  by rewrite (wired_accessors _ _ _ Hw k name v Hk).
Qed.

Lemma read_stored k name v s cs w :
  signals p !! k = Some (name, v) →
  cells w = (λ nv, stored p nv.1 s cs) <$> signals p →
  read (members i) name w = stored p name s cs.
Proof.
  intros Hk Hc. rewrite (read_accessor k name v); [|done].
  by rewrite Hc, list_lookup_fmap, Hk.
Qed.

Lemma deliveries_held u acts :
  deliveries 0 [held l u] acts = Notified (unsub_id u) <$> pushed acts.
Proof.
  unfold deliveries. rewrite filter_own.
  induction (pushed acts) as [|s ss IH]; [done|].
  simpl. by f_equal.
Qed.

(** While the subscription is held the signals show the last state pushed. *)
Lemma perform_last u acts s w :
  subs w = [held l u] → length (cells w) = n → last (pushed acts) = Some s →
  ∃ cs, cells (perform 0 acts w) = (λ nv, stored p nv.1 s cs) <$> signals p.
Proof.
  intros Hs Hc. induction acts as [|a acts IH] using rev_ind; [done|].
  unfold perform. rewrite foldl_app. simpl. fold (perform 0 acts w).
  destruct (perform_frame 0 acts w) as (Hs' & _).
  destruct a as [c|s']; unfold pushed; rewrite omap_app; simpl.
  - rewrite app_nil_r. intros Hl. destruct (IH Hl) as [cs Hcs]. by exists cs.
  - rewrite last_snoc. intros [= ->]. exists (ctls (perform 0 acts w)).
    apply (notify_cells u); [by rewrite Hs'|].
    apply perform_length; [|done]. rewrite Hs.
    intros sub ->%list_elem_of_singleton. apply wired_length.
Qed.

(** *** The log of one run of the effect *)

Lemma run_anatomy w :
  Inv l n w →
  let u := {| unsub_id := fresh w |} in
  let w1 := (subscribe 0 l (run_cleanups w)).2 in
  step i w Run = (onCleanup u (auto_call (auto p o) w1).2).2 ∧
  subs w1 = [held l u] ∧ cleanups w1 = [] ∧ length (cells w1) = n ∧
  length (ctls w1) = 1 ∧
  ∃ o0, log w1 = log w ++ ((λ u', Unsubscribed (unsub_id u')) <$> cleanups w) ++
                 Subscribed 0 (fresh w) ::
                 (Notified (fresh w) <$>
                    pushed (method (class o0) "subscribe" [] (internals o0)).1).
Proof.
  intros HI u w1.
  destruct (inv_cleanups l n w HI) as ([Hc Hk Hs _] & Hs0 & Hc0 & _ & _ & Hf & Hl).
  destruct (the_controller _ Hk) as [o0 Ho0].
  destruct (subscribe_frame l o0 _ Ho0) as (Eu & Es1 & Ec1 & Ek1 & El1).
  rewrite Hf in Eu, Es1, El1. rewrite Hs0 in Es1, El1. rewrite Hc0 in Ec1.
  fold u in Eu, Es1, El1. fold w1 in Es1, Ec1, Ek1, El1.
  split; [|repeat split; try done].
  - rewrite step_run, effect_of_world. fold w1. by rewrite Eu.
  - by apply (subscribe_length l n wired_length o0).
  - congruence.
  - exists o0. rewrite El1, Hl. simpl. rewrite (deliveries_held u).
    by rewrite <- app_assoc.
Qed.

(** *** After the subscription is gone *)

Lemma deliveries_nobody r acts : deliveries r [] acts = [].
Proof. unfold deliveries. induction (pushed acts) as [|s ss IH]; [done|]. done. Qed.

Lemma unsubscribed_step w e :
  Inv l n w → subs w = [] → e ≠ Run →
  subs (step i w e) = [] ∧ cells (step i w e) = cells w ∧
  ∃ es, log (step i w e) = log w ++ es ∧ ∀ id s, Notified id s ∉ es.
Proof.
  intros HI Hs He. destruct e as [| |name args|acts]; [done| | |].
  - destruct (inv_cleanups l n w HI) as (_ & Hs' & _ & Hc & _ & _ & Hl).
    repeat split; try done. eexists. split; [exact Hl|].
    intros id s (u & [=] & _)%list_elem_of_fmap.
  - unfold step, use. destruct (member name (members i)) as [f|] eqn:E.
    + destruct (member_Forall _ _ _ _ (wired_members _ _ _ Hw) E) as [k|m pick wrap|g].
      * repeat split; try done. exists []. split; [by rewrite app_nil_r|].
        intros id s. apply not_elem_of_nil.
      * destruct (the_controller w) as [o0 Ho0]; [by destruct HI|].
        change (subs (call 0 m (pick args) w).2 = [] ∧
                cells (call 0 m (pick args) w).2 = cells w ∧
                ∃ es, log (call 0 m (pick args) w).2 = log w ++ es ∧
                      ∀ id s, Notified id s ∉ es).
        destruct (call_frame o0 m (pick args) w Ho0) as (Hs' & _ & _ & Hl).
        rewrite Hs in Hl. rewrite deliveries_nobody in Hl.
        split; [by rewrite Hs'|]. split.
        -- rewrite (call_world o0); [|done]. simpl. rewrite perform_silent; [done|].
           simpl. rewrite Hs. apply deliveries_nobody.
        -- eexists. split; [exact Hl|].
           intros id s [=]%list_elem_of_singleton.
      * unfold get. destruct (ctls w !! 0); simpl; repeat split; try done;
          exists []; (split; [by rewrite app_nil_r|]);
          intros id s; apply not_elem_of_nil.
    + simpl. repeat split; try done. exists []. split; [by rewrite app_nil_r|].
      intros id s. apply not_elem_of_nil.
  - simpl. destruct (perform_frame 0 acts w) as (Hs' & _ & _ & _ & Hl).
    rewrite Hs, deliveries_nobody in Hl.
    split; [by rewrite Hs'|]. split.
    + apply perform_silent. rewrite Hs. apply deliveries_nobody.
    + exists []. split; [done|]. intros id s. apply not_elem_of_nil.
Qed.

Lemma unsubscribed_steps evs w :
  Inv l n w → subs w = [] → Run ∉ evs →
  subs (foldl (step i) w evs) = [] ∧ cells (foldl (step i) w evs) = cells w ∧
  ∃ es, log (foldl (step i) w evs) = log w ++ es ∧ ∀ id s, Notified id s ∉ es.
Proof.
  revert w. induction evs as [|e evs IH]; intros w HI Hs Hr.
  - repeat split; try done. exists []. split; [by rewrite app_nil_r|].
    intros id s. apply not_elem_of_nil.
  - apply not_elem_of_cons in Hr as [He Hr].
    destruct (unsubscribed_step w e HI Hs (not_eq_sym He)) as (Hs1 & Hc1 & es1 & El1 & Hn1).
    destruct (IH (step i w e) (step_inv w e HI) Hs1 Hr) as (Hs2 & Hc2 & es2 & El2 & Hn2).
    simpl. split; [done|]. split; [congruence|].
    exists (es1 ++ es2). split; [by rewrite El2, El1, app_assoc|].
    intros id s [?|?]%elem_of_app; [by apply (Hn1 id s) | by apply (Hn2 id s)].
Qed.

(** *** The automatic call of a run *)

Lemma run_call w m :
  Inv l n w → auto p o = Some m →
  let u := {| unsub_id := fresh w |} in
  let w1 := (subscribe 0 l (run_cleanups w)).2 in
  ∃ o1, ctls w1 !! 0 = Some o1 ∧
        step i w Run = (onCleanup u (call 0 m [] w1).2).2 ∧
        log (step i w Run) =
          log w1 ++ Invoked 0 m [] ::
            (Notified (fresh w) <$> pushed (method (class o1) m [] (internals o1)).1).
Proof.
  intros HI Ha u w1.
  destruct (run_anatomy w HI) as (Es & Hs1 & _ & _ & Hk1 & _).
  fold u w1 in Es, Hs1, Hk1. rewrite Ha in Es.
  destruct (the_controller _ Hk1) as [o1 Ho1]. exists o1.
  split; [done|]. split; [exact Es|].
  rewrite Es. simpl.
  destruct (call_frame o1 m [] w1 Ho1) as (_ & _ & _ & Hl).
  change (log (auto_call (Some m) w1).2) with (log (call 0 m [] w1).2).
  by rewrite Hl, Hs1, deliveries_held.
Qed.

Lemma run_without_call w :
  Inv l n w → auto p o = None →
  log (step i w Run) = log (subscribe 0 l (run_cleanups w)).2.
Proof.
  intros HI Ha. destruct (run_anatomy w HI) as (Es & _).
  by rewrite Es, Ha.
Qed.

End Wiring.

(** ** Main results *)

Lemma not_constructed_filter es :
  Forall (λ e, is_constructed e = false) es →
  filter (λ e, is_constructed e = true) es = [].
Proof.
  induction 1 as [|e es He _ IH]; [done|].
  rewrite filter_cons_False; [done|]. by rewrite He.
Qed.

Lemma notified_not_subscribed id ss :
  filter (λ e, is_subscribed e = true) (Notified id <$> ss) = [].
Proof. induction ss as [|s ss IH]; [done|]. simpl. by rewrite filter_cons_False. Qed.

Lemma unsubscribed_not_subscribed us :
  filter (λ e, is_subscribed e = true)
    ((λ u, Unsubscribed (unsub_id u)) <$> us) = [].
Proof. induction us as [|u us IH]; [done|]. simpl. by rewrite filter_cons_False. Qed.

Lemma no_notification_yet {p o l} (Hw : Wired p o l) evs :
  (∀ id s, Notified id s ∉ log (exec (instantiate (create p o)) evs)) →
  cells (exec (instantiate (create p o)) evs) = (signals p).*2.
Proof.
  intros H. destruct (exec_follows Hw evs) as (es & E & _ & C).
  rewrite C.
  - by destruct (wired_world _ _ _ Hw) as (cls & args & ->).
  - intros id s Hin. apply (H id s). rewrite E. apply elem_of_app. by right.
Qed.

(** C8. Before the first notification is delivered every accessor of
    every primitive is returned and yields its default, which is the one
    listed for its name: "idle" for status, null for message, error, poll
    and position, the empty record for counts, the empty list for
    userReactions, comments and announcements, and 0 for views and
    uniqueVisitors; and every default listed is that of an accessor of
    some primitive. *)
Theorem C8_defaults_before_first_notification p o evs name v :
  let i := instantiate (create p o) in
  let w := exec i evs in
  (name, v) ∈ signals p →
  (∀ id s, Notified id s ∉ log w) →
  is_Some (member name (members i)) ∧
  read (members i) name w = v ∧
  (name, v) ∈ spec_defaults ∧
  Forall (λ nv, ∃ q, nv ∈ signals q) spec_defaults.
Proof.
  intros i w Hin Hn. destruct (create_wired p o) as [l Hw].
  pose proof (no_notification_yet Hw evs Hn) as Hc. subst w i.
  pose proof Hin as Hin'. apply list_elem_of_lookup in Hin' as [k Hk].
  split; [by rewrite (wired_accessors _ _ _ Hw k name v Hk)|]. split.
  { rewrite (read_accessor Hw k name v _ Hk), Hc, list_lookup_fmap, Hk. done. }
  split.
  { unfold spec_defaults.
    destruct p; simpl in Hin;
      repeat (apply elem_of_cons in Hin as [[= -> ->]|Hin]);
      try (by apply elem_of_nil in Hin);
      solve [repeat first [by left | right]]. }
  unfold spec_defaults. apply Forall_forall. intros [nm x] Hd.
  repeat (apply elem_of_cons in Hd as [[= -> ->]|Hd]);
    try (by apply elem_of_nil in Hd);
    first [ exists Subscribe; solve [repeat first [by left | right]]
          | exists Reactions; solve [repeat first [by left | right]]
          | exists Comments; solve [repeat first [by left | right]]
          | exists Waitlist; solve [repeat first [by left | right]]
          | exists Views; solve [repeat first [by left | right]]
          | exists Poll; solve [repeat first [by left | right]]
          | exists Announcements; solve [repeat first [by left | right]] ].
Qed.

(** C10. A step of an instance (running or disposing of the effect, a
    call [Use name args] of any returned method, activity of the
    controller) that delivers no notification to the listener leaves
    every signal as it was: only the subscription callback writes them.
    In particular, while no subscription is held a call of a returned
    method changes no signal, whatever the controller does in it. *)
Theorem C10_signals_written_by_listener_only p o evs e :
  let i := instantiate (create p o) in
  let w := exec i evs in
  ((∀ id s, Notified id s ∉ added w (step i w e)) →
   cells (step i w e) = cells w) ∧
  (∀ name args, subs w = [] → cells (step i w (Use name args)) = cells w).
Proof.
  intros i w. subst i w. destruct (create_wired p o) as [l Hw]. split.
  - intros H.
    destruct (step_follows Hw (exec (instantiate (create p o)) evs) e)
      as (es & E & _ & C).
    apply C. by rewrite (follows_added _ _ _ E) in H.
  - intros name args Hs.
    by destruct (unsubscribed_step Hw _ (Use name args) (exec_inv Hw evs) Hs)
      as (_ & Hc & _).
Qed.

(** C3. A call of a primitive constructs exactly one controller; every
    run of its effect subscribes exactly once and registers exactly one
    cleanup, the unsubscribe function of that subscription; and at no
    time is more than one subscription held. *)
Theorem C3_one_controller_one_subscription p o evs :
  let i := instantiate (create p o) in
  let w := exec i evs in
  let w' := step i w Run in
  length (ctls w) = 1 ∧
  length (filter (λ e, is_constructed e = true) (log w)) = 1 ∧
  length (subs w) ≤ 1 ∧
  sub_id <$> subs w = unsub_id <$> cleanups w ∧
  length (filter (λ e, is_subscribed e = true) (added w w')) = 1 ∧
  length (subs w') = 1 ∧ length (cleanups w') = 1 ∧
  sub_id <$> subs w' = unsub_id <$> cleanups w'.
Proof.
  intros i w w'. destruct (create_wired p o) as [l Hw].
  pose proof (exec_inv Hw evs) as HI. fold i w in HI.
  pose proof (step_inv Hw w Run HI) as HI'. fold i w' in HI'.
  assert (Hpair : ∀ w0, Inv l (length (signals p)) w0 →
                    sub_id <$> subs w0 = unsub_id <$> cleanups w0).
  { intros w0 [_ _ -> _]. by rewrite <- list_fmap_compose. }
  split; [by destruct HI|]. split.
  { destruct (exec_follows Hw evs) as (es & E & F & _). fold i w in E.
    destruct (wired_world _ _ _ Hw) as (cls & args & Ew). fold i in Ew.
    rewrite E, Ew. simpl. by rewrite not_constructed_filter. }
  split; [destruct HI as [_ _ -> ?]; by rewrite length_fmap|].
  split; [by apply Hpair|].
  destruct (run_anatomy Hw w HI) as (Es & Hs1 & Hc1 & _ & Hk1 & o0 & El1).
  fold i w' in Es.
  assert (Ef : subs w' = [held l {| unsub_id := fresh w |}] ∧
               ∃ es, log w' = log (subscribe 0 l (run_cleanups w)).2 ++ es ∧
                     filter (λ e, is_subscribed e = true) es = []).
  { rewrite Es. unfold auto_call. destruct (auto p o) as [m|]; simpl.
    - destruct (the_controller _ Hk1) as [o1 Ho1].
      destruct (call_frame o1 m [] _ Ho1) as (-> & _ & _ & ->).
      split; [done|]. eexists. split; [done|].
      rewrite filter_cons_False by done. rewrite Hs1, deliveries_held.
      apply notified_not_subscribed.
    - split; [done|]. exists []. by rewrite app_nil_r. }
  destruct Ef as (Esub & es & El & Ees).
  split; [|split; [by rewrite Esub|split; [|by apply Hpair]]].
  2: { pose proof (f_equal length (Hpair w' HI')) as Hlen.
       rewrite !length_fmap, Esub in Hlen. by symmetry. }
  rewrite El1, <- app_assoc in El. rewrite (follows_added w w' _ El).
  rewrite <- !app_assoc, !filter_app, Ees, app_nil_r.
  rewrite filter_cons_True by done.
  by rewrite unsubscribed_not_subscribed, notified_not_subscribed.
Qed.

(** Disposal in any world: the subscriptions held are unsubscribed, and
    from then on nothing is delivered. *)
Lemma dispose_ends_deliveries p o evs evs' :
  let i := instantiate (create p o) in
  let w := exec i evs in
  let w' := step i w Dispose in
  let w'' := foldl (step i) w' evs' in
  Run ∉ evs' →
  added w w' = (λ sub, Unsubscribed (sub_id sub)) <$> subs w ∧
  subs w' = [] ∧ subs w'' = [] ∧
  (∀ id s, Notified id s ∉ added w' w'') ∧
  cells w'' = cells w'.
Proof.
  intros i w w' w'' Hr. destruct (create_wired p o) as [l Hw].
  pose proof (exec_inv Hw evs) as HI. fold i w in HI.
  destruct (inv_cleanups l _ w HI) as (HI' & Hs' & _ & _ & _ & _ & Hl).
  change (run_cleanups w) with w' in HI', Hs', Hl.
  destruct (unsubscribed_steps Hw evs' w' HI' Hs' Hr) as (Hs2 & Hc2 & es & El2 & Hn).
  fold i w'' in Hs2, Hc2, El2.
  split; [|split; [done|split; [done|split; [|done]]]].
  - rewrite (follows_added _ _ _ Hl). destruct HI as [_ _ -> _].
    by rewrite <- list_fmap_compose.
  - by rewrite (follows_added _ _ _ El2).
Qed.

(** A run of the effect subscribes and registers the unsubscribe function
    of that subscription. *)
Lemma run_subscribes {p o l} (Hw : Wired p o l) w :
  Inv l (length (signals p)) w →
  Subscribed 0 (fresh w) ∈ added w (step (instantiate (create p o)) w Run) ∧
  cleanups (step (instantiate (create p o)) w Run) = [{| unsub_id := fresh w |}].
Proof.
  intros HI.
  destruct (inv_cleanups l _ w HI) as (HI0 & _ & Hc0 & _ & _ & Hf0 & _).
  destruct (inv_effect l _ (wired_length Hw) (auto p o) _ HI0 Hc0) as (_ & Hcl).
  rewrite Hf0 in Hcl. rewrite <- (step_run Hw) in Hcl. split; [|exact Hcl].
  destruct (run_anatomy Hw w HI) as (_ & _ & _ & _ & _ & o0 & El1).
  destruct (auto p o) as [m|] eqn:Ha.
  - destruct (run_call Hw w m HI Ha) as (o1 & _ & _ & El).
    rewrite El1, <- app_assoc in El. rewrite (follows_added _ _ _ El).
    apply elem_of_app. left. apply elem_of_app. right. left.
  - pose proof (run_without_call Hw w HI Ha) as El.
    rewrite El1 in El. rewrite (follows_added _ _ _ El).
    apply elem_of_app. right. left.
Qed.

(** Between a run and the next run or disposal the subscription stays. *)
Lemma mounted_step {p o l} (Hw : Wired p o l) w e :
  Inv l (length (signals p)) w → e ≠ Run → e ≠ Dispose →
  subs (step (instantiate (create p o)) w e) = subs w ∧
  cleanups (step (instantiate (create p o)) w e) = cleanups w.
Proof.
  intros HI Hr Hd. destruct e as [| |name args|acts]; [done|done| |].
  - unfold step, use.
    destruct (member name (members (instantiate (create p o)))) as [f|] eqn:E;
      [|done].
    destruct (member_Forall _ _ _ _ (wired_members _ _ _ Hw) E) as [k|m pick wrap|g].
    + done.
    + destruct (the_controller w) as [o0 Ho0]; [by destruct HI|].
      destruct (call_frame o0 m (pick args) w Ho0) as (Hs & Hc & _).
      exact (conj Hs Hc).
    + unfold get. by destruct (ctls w !! 0).
  - destruct (perform_frame 0 acts w) as (Hs & _ & Hc & _). exact (conj Hs Hc).
Qed.

Lemma mounted_steps {p o l} (Hw : Wired p o l) evs w :
  Inv l (length (signals p)) w → Run ∉ evs → Dispose ∉ evs →
  subs (foldl (step (instantiate (create p o))) w evs) = subs w ∧
  cleanups (foldl (step (instantiate (create p o))) w evs) = cleanups w.
Proof.
  revert w. induction evs as [|e evs IH]; intros w HI Hr Hd; [done|].
  apply not_elem_of_cons in Hr as [Hr1 Hr]. apply not_elem_of_cons in Hd as [Hd1 Hd].
  destruct (mounted_step Hw w e HI (not_eq_sym Hr1) (not_eq_sym Hd1)) as (Hs & Hc).
  destruct (IH (step (instantiate (create p o)) w e) (step_inv Hw w e HI) Hr Hd)
    as (Hs' & Hc').
  simpl. split; congruence.
Qed.

(** C4. A run of the effect establishes a subscription, which the
    primitive holds until it is disposed of; disposing of it then calls
    the unsubscribe function of exactly that subscription, and from then
    on the controller holds no listener of the primitive, no notification
    is delivered and the signals keep their values, whatever the
    controller and the caller do. *)
Theorem C4_teardown_unsubscribes p o pre mid evs' :
  let i := instantiate (create p o) in
  let w0 := exec i pre in
  let w1 := step i w0 Run in
  let w := foldl (step i) w1 mid in
  let w' := step i w Dispose in
  let w'' := foldl (step i) w' evs' in
  Run ∉ mid → Dispose ∉ mid → Run ∉ evs' →
  ∃ id,
    Subscribed 0 id ∈ added w0 w1 ∧
    sub_id <$> subs w = [id] ∧
    added w w' = [Unsubscribed id] ∧
    subs w' = [] ∧ subs w'' = [] ∧
    (∀ id' s, Notified id' s ∉ added w' w'') ∧
    cells w'' = cells w'.
Proof.
  intros i w0 w1 w w' w'' Hr1 Hd1 Hr. destruct (create_wired p o) as [l Hw].
  pose proof (exec_inv Hw pre) as HI0. fold i w0 in HI0.
  destruct (run_subscribes Hw w0 HI0) as (Hsub & Hcl). fold i w1 in Hsub, Hcl.
  pose proof (step_inv Hw w0 Run HI0) as HI1. fold i w1 in HI1.
  destruct (mounted_steps Hw mid w1 HI1 Hr1 Hd1) as (Hs & Hc). fold i w in Hs, Hc.
  pose proof (steps_inv Hw mid w1 HI1) as HI. fold i w in HI.
  destruct (inv_cleanups l _ w HI) as (HI' & Hs' & _ & _ & _ & _ & Hl).
  change (run_cleanups w) with w' in HI', Hs', Hl.
  destruct (unsubscribed_steps Hw evs' w' HI' Hs' Hr) as (Hs2 & Hc2 & es & El2 & Hn).
  fold i w'' in Hs2, Hc2, El2.
  exists (fresh w0). split; [exact Hsub|]. split.
  { rewrite Hs. destruct HI1 as [_ _ -> _]. by rewrite Hcl. }
  split; [by rewrite (follows_added _ _ _ Hl), Hc, Hcl|].
  split; [done|]. split; [done|]. split; [|done].
  by rewrite (follows_added _ _ _ El2).
Qed.

Lemma strict_ne_false_spec v : strict_ne_false v = true ↔ v ≠ JBool false.
Proof.
  split.
  - by intros H ->.
  - intros H. destruct v as [| |[]| | | | |]; try done.
Qed.

Lemma stored_field p name s cs :
  ¬ (p = Announcements ∧ name = "announcements") → stored p name s cs = s.[name].
Proof.
  intros H. destruct p; try done. simpl.
  destruct (String.eqb_spec name "announcements") as [->|]; [|done].
  by destruct H.
Qed.

Lemma stored_visible s w :
  stored Announcements "announcements" s (ctls w) =
  (get 0 "getVisibleAnnouncements" w).1.
Proof. simpl. unfold get_in_listener, get. by destruct (ctls w !! 0). Qed.

(** C1 (amended). While the subscription is held, a state pushed by the
    controller is copied field by field into the signals: right after the
    notification every accessor that is backed by a signal returns the
    field of the same name of the pushed state.  The one exception is the
    announcements accessor of createAnnouncements, which returns what
    controller.getVisibleAnnouncements() returns at that moment. *)
Theorem C1_notification_reaches_accessors p o evs s name v :
  let i := instantiate (create p o) in
  let w := exec i evs in
  (name, v) ∈ signals p →
  subs w ≠ [] →
  read (members i) name (notify 0 s w) =
    if bool_decide (p = Announcements ∧ name = "announcements")
    then (get 0 "getVisibleAnnouncements" w).1
    else s.[name].
Proof.
  intros i w Hin Hne. destruct (create_wired p o) as [l Hw].
  pose proof (exec_inv Hw evs) as HI. fold i w in HI.
  destruct (held_subscription w HI Hne) as (u & Hs & _).
  apply list_elem_of_lookup in Hin as [k Hk].
  rewrite (read_stored Hw k name v s (ctls w)); [|done|].
  - case_bool_decide as Hd.
    + destruct Hd as [-> ->]. apply stored_visible.
    + by apply stored_field.
  - apply (notify_cells Hw u); [done|by destruct HI].
Qed.

(** C5. In createAnnouncements, right after any notification the
    announcements accessor returns what
    controller.getVisibleAnnouncements() returns, whatever the pushed
    state contains. *)
Theorem C5_announcements_are_the_visible_ones o evs s :
  let i := instantiate (create Announcements o) in
  let w := exec i evs in
  subs w ≠ [] →
  read (members i) "announcements" (notify 0 s w) =
    (get 0 "getVisibleAnnouncements" (notify 0 s w)).1 ∧
  ∀ s', read (members i) "announcements" (notify 0 s' w) =
        read (members i) "announcements" (notify 0 s w).
Proof.
  intros i w Hne. destruct (create_wired Announcements o) as [l Hw].
  pose proof (exec_inv Hw evs) as HI. fold i w in HI.
  destruct (held_subscription w HI Hne) as (u & Hs & _).
  assert (H : ∀ s0, read (members i) "announcements" (notify 0 s0 w) =
                    (get 0 "getVisibleAnnouncements" w).1).
  { intros s0.
    rewrite (read_stored Hw 0 "announcements" (JArr []) s0 (ctls w)); [|done|].
    - apply stored_visible.
    - apply (notify_cells Hw u); [done|by destruct HI]. }
  split; [|intros s'; by rewrite !H].
  rewrite H. unfold get.
  destruct (notify_frame 0 s w) as (-> & _). by destruct (ctls w !! 0).
Qed.

(** C2. When the effect of createReactions, createComments, createPoll
    or createAnnouncements runs, controller.fetch() is called if and only
    if options.autoFetch is not false; when the effect of createViews
    runs, controller.record() is called if and only if options.autoRecord
    is not false. *)
Theorem C2_auto_call_on_mount p o evs opt m :
  let i := instantiate (create p o) in
  let w := exec i evs in
  spec_mount_option p = Some (opt, m) →
  Invoked 0 m [] ∈ added w (step i w Run) ↔ o.[opt] ≠ JBool false.
Proof.
  intros i w Hm. destruct (create_wired p o) as [l Hw].
  pose proof (exec_inv Hw evs) as HI. fold i w in HI.
  destruct (run_anatomy Hw w HI) as (_ & _ & _ & _ & _ & o0 & El1).
  rewrite <- strict_ne_false_spec.
  assert (Ha : auto p o = if strict_ne_false o.[opt] then Some m else None)
    by (unfold auto; by rewrite Hm).
  destruct (strict_ne_false o.[opt]).
  - destruct (run_call Hw w m HI Ha) as (o1 & _ & _ & El). fold i in El.
    rewrite El1, <- app_assoc in El. rewrite (follows_added _ _ _ El).
    split; [done|]. intros _. apply elem_of_app. right. left.
  - pose proof (run_without_call Hw w HI Ha) as El. fold i in El.
    rewrite El1 in El. rewrite (follows_added _ _ _ El).
    split; [|done].
    intros [(u & [=] & _)%list_elem_of_fmap|
            [[=]|(s & [=] & _)%list_elem_of_fmap]%elem_of_cons]%elem_of_app.
Qed.

(** C9. In a run of the effect of a primitive with a mount-time call,
    the call is made in a world in which the subscription of this run is
    already held: nothing was called on the controller before it was
    subscribed to, every state the call pushes is delivered to that
    subscription, and after the run the signals show the last of them. *)
Theorem C9_subscribed_before_auto_call p o evs opt m :
  let i := instantiate (create p o) in
  let w := exec i evs in
  spec_mount_option p = Some (opt, m) →
  o.[opt] ≠ JBool false →
  ∃ w1 o1 id,
    step i w Run = (onCleanup {| unsub_id := id |} (call 0 m [] w1).2).2 ∧
    ctls w1 !! 0 = Some o1 ∧
    sub_id <$> subs w1 = [id] ∧
    Subscribed 0 id ∈ added w w1 ∧
    Forall (λ e, is_invoked e = false) (added w w1) ∧
    added w1 (step i w Run) =
      Invoked 0 m [] ::
        (Notified id <$> pushed (method (class o1) m [] (internals o1)).1) ∧
    ∀ s name v,
      last (pushed (method (class o1) m [] (internals o1)).1) = Some s →
      (name, v) ∈ signals p → name ≠ "announcements" →
      read (members i) name (step i w Run) = s.[name].
Proof.
  intros i w Hm Ho. destruct (create_wired p o) as [l Hw].
  pose proof (exec_inv Hw evs) as HI. fold i w in HI.
  assert (Ha : auto p o = Some m).
  { unfold auto. rewrite Hm. by apply strict_ne_false_spec in Ho as ->. }
  destruct (run_anatomy Hw w HI) as (_ & Hs1 & _ & Hc1 & _ & o0 & El1).
  destruct (run_call Hw w m HI Ha) as (o1 & Ho1 & Es & El). fold i in Es, El.
  set (w1 := (subscribe 0 l (run_cleanups w)).2) in *.
  exists w1, o1, (fresh w).
  rewrite (follows_added _ _ _ El1), (follows_added _ _ _ El).
  split; [done|]. split; [done|]. split; [by rewrite Hs1|].
  split; [apply elem_of_app; right; left|]. split.
  { apply Forall_app. split; [|constructor; [done|]].
    - apply Forall_fmap, Forall_forall. by intros u _.
    - apply Forall_fmap, Forall_forall. by intros s _. }
  split; [done|]. intros s name v Hl Hin Hname.
  apply list_elem_of_lookup in Hin as [k Hk].
  destruct (perform_last Hw {| unsub_id := fresh w |}
              (method (class o1) m [] (internals o1)).1 s
              (note (Invoked 0 m []) w1)) as [cs Hcs]; [done..|].
  rewrite (read_stored Hw k name v s cs); [|done|].
  - apply stored_field. by intros [_ ?].
  - rewrite Es. simpl. by rewrite (call_world o1).
Qed.

(** C6. Every method a primitive returns passes its arguments unchanged
    to one method of the controller and adds nothing: the asynchronous
    ones await that call (subscribe and submit call submit, vote calls
    vote, join calls join, dismiss calls dismiss, refresh calls fetch,
    addReaction calls add, removeReaction calls remove, postComment calls
    post, record calls record), reset calls reset, and hasVoted returns
    what the controller's hasVoted returns.  The returned object holds
    nothing but these methods and the signal accessors. *)
Theorem C6_methods_delegate p o name d args w :
  let i := instantiate (create p o) in
  (name, d) ∈ spec_delegations p →
  length args = arity d →
  use (members i) name args w = spec_delegate d args w ∧
  (members i).*1 = (signals p).*1 ++ (spec_delegations p).*1.
Proof.
  intros i Hin Hlen. split; [|by destruct p].
  destruct p; simpl in Hin;
    repeat (apply elem_of_cons in Hin as [[= -> ->]|Hin]);
    try (by apply elem_of_nil in Hin);
    simpl in Hlen;
    destruct args as [|a0 [|a1 [|a2 [|a3 args]]]]; try discriminate Hlen;
    reflexivity.
Qed.

(** C7. Every name the module passes on from the core library (the six
    helpers and constants, and the types) is bound in the module to
    exactly what the core library binds it to, in the source and, for the
    values, in the build output. *)
Theorem C7_reexports_unchanged name :
  name ∈ core_values ++ core_types →
  resolve index_ts name = OfCore <$> namespace name ∧
  (name ∈ core_values → resolve index_js name = OfCore <$> namespace name).
Proof.
  intros Hin. unfold core_values, core_types in *. simpl in Hin.
  repeat (apply elem_of_cons in Hin as [->|Hin]);
    try (by apply elem_of_nil in Hin);
    (split; [reflexivity|]);
    try reflexivity;
    intros Hv; exfalso;
    repeat (apply elem_of_cons in Hv as [[=]|Hv]);
    by apply elem_of_nil in Hv.
Qed.

End Facts.

(** ** The results at work on the toy core *)

Section Examples.
#[local] Existing Instance Toy.core.

Import Toy.

(** The toy core at work: mounting the announcements board subscribes,
    then fetches, and the fetched state is delivered. *)
Example board_mounted :
  log (exec board [Run]) =
  [Constructed "AnnouncementsController" [JObj []]; Subscribed 0 0;
   Invoked 0 "fetch" []; Notified 0 (state_of true)] ∧
  cells (exec board [Run]) =
  [JArr [announcement 1; announcement 2]; JStr "success"; JNull].
Proof. by vm_compute. Qed.

(** With [autoFetch: false] nothing is fetched on mount. *)
Example reactions_not_fetched :
  log (exec silent_reactions [Run]) =
  [Constructed "ReactionsController"
     [JObj [("autoFetch", JBool false)]; JUndefined];
   Subscribed 0 0].
Proof. by vm_compute. Qed.

(** A re-run of the effect replaces the subscription, and disposal ends it. *)
Example board_rerun :
  sub_id <$> subs (exec board [Run; Run]) = [1] ∧
  subs (exec board [Run; Run; Dispose]) = [] ∧
  added (exec board [Run]) (exec board [Run; Run]) =
  [Unsubscribed 0; Subscribed 0 1; Invoked 0 "fetch" [];
   Notified 1 (state_of true)].
Proof. by vm_compute. Qed.

(** A rejected promise of the controller rejects the promise of the method. *)
Example dismiss_rejected :
  (use (members board) "dismiss" [JStr "x"] (exec board [Run])).1 =
  JPromise false (JStr "bad id").
Proof. by vm_compute. Qed.

(** C1 as stated fails for createAnnouncements: after [dismiss(1)] the
    controller pushes a state that still lists both announcements, and the
    announcements accessor returns the visible one only. *)
Lemma C1_counterexample :
  ("announcements", JArr []) ∈ signals Announcements ∧
  subs (exec board [Run]) ≠ [] ∧
  last (log (exec board [Run; Use "dismiss" [JNum 1]])) =
    Some (Notified 0 (state_of true)) ∧
  read (members board) "announcements"
    (exec board [Run; Use "dismiss" [JNum 1]]) = JArr [announcement 2] ∧
  (state_of true).["announcements"] =
    JArr [announcement 1; announcement 2] ∧
  read (members board) "announcements"
    (notify 0 (state_of true) (exec board [Run; Use "dismiss" [JNum 1]]))
  ≠ (state_of true).["announcements"].
Proof.
  split; [by left|]. split; [by vm_compute|]. split; [by vm_compute|].
  split; [by vm_compute|]. split; [by vm_compute|]. by vm_compute.
Qed.

(** C1 at the status accessor of the announcements board. *)
Lemma C1_witness :
  ("status", JStr "idle") ∈ signals Announcements ∧
  subs (exec board [Run]) ≠ [] ∧
  read (members board) "status" (notify 0 (state_of false) (exec board [Run])) =
    if bool_decide (Announcements = Announcements ∧ "status" = "announcements")
    then (get 0 "getVisibleAnnouncements" (exec board [Run])).1
    else (state_of false).["status"].
Proof.
  assert (H1 : ("status", JStr "idle") ∈ signals Announcements) by (right; left).
  assert (H2 : subs (exec board [Run]) ≠ []) by (by vm_compute).
  split; [exact H1|]. split; [exact H2|].
  exact (C1_notification_reaches_accessors Announcements (JObj []) [Run]
           (state_of false) "status" (JStr "idle") H1 H2).
Defined.

(** C2 with [autoFetch: false] and with the option left out. *)
Lemma C2_witness :
  spec_mount_option Reactions = Some ("autoFetch", "fetch") ∧
  (Invoked 0 "fetch" [] ∈
     added (exec silent_reactions []) (step silent_reactions (exec silent_reactions []) Run)
   ↔ prop (JObj [("autoFetch", JBool false)]) "autoFetch" ≠ JBool false) ∧
  (Invoked 0 "fetch" [] ∈ added (exec board []) (step board (exec board []) Run)
   ↔ prop (JObj []) "autoFetch" ≠ JBool false).
Proof.
  split; [reflexivity|]. split.
  - apply (C2_auto_call_on_mount Reactions (JObj [("autoFetch", JBool false)]) []
             "autoFetch" "fetch"). reflexivity.
  - apply (C2_auto_call_on_mount Announcements (JObj []) [] "autoFetch" "fetch").
    reflexivity.
Defined.

(** C4: the board is mounted, an announcement is dismissed, and the board
    is disposed of; its one subscription is unsubscribed, and it then
    ignores a refresh and a late notification. *)
Lemma C4_witness :
  (Run ∉ [Use "dismiss" [JNum 1]]) ∧ (Dispose ∉ [Use "dismiss" [JNum 1]]) ∧
  (Run ∉ [Use "refresh" []; Async [Notify (state_of false)]]) ∧
  Subscribed 0 0 ∈ added (exec board []) (step board (exec board []) Run) ∧
  sub_id <$> subs (foldl (step board) (step board (exec board []) Run)
                     [Use "dismiss" [JNum 1]]) = [0] ∧
  added (foldl (step board) (step board (exec board []) Run)
           [Use "dismiss" [JNum 1]])
    (step board (foldl (step board) (step board (exec board []) Run)
                   [Use "dismiss" [JNum 1]]) Dispose) = [Unsubscribed 0] ∧
  subs (step board (foldl (step board) (step board (exec board []) Run)
                      [Use "dismiss" [JNum 1]]) Dispose) = [] ∧
  cells (foldl (step board)
           (step board (foldl (step board) (step board (exec board []) Run)
                          [Use "dismiss" [JNum 1]]) Dispose)
           [Use "refresh" []; Async [Notify (state_of false)]]) =
  cells (step board (foldl (step board) (step board (exec board []) Run)
                       [Use "dismiss" [JNum 1]]) Dispose).
Proof.
  assert (H1 : Run ∉ [Use "dismiss" [JNum 1]]).
  { intros [[=]|[]%elem_of_nil]%elem_of_cons. }
  assert (H2 : Dispose ∉ [Use "dismiss" [JNum 1]]).
  { intros [[=]|[]%elem_of_nil]%elem_of_cons. }
  assert (H3 : Run ∉ [Use "refresh" []; Async [Notify (state_of false)]]).
  { intros [[=]|[[=]|[]%elem_of_nil]%elem_of_cons]%elem_of_cons. }
  split; [exact H1|]. split; [exact H2|]. split; [exact H3|].
  destruct (C4_teardown_unsubscribes Announcements (JObj []) []
              [Use "dismiss" [JNum 1]]
              [Use "refresh" []; Async [Notify (state_of false)]] H1 H2 H3)
    as (id & Hsub & Hid & Hun & Hs & _ & _ & Hc).
  assert (E : id = 0).
  { vm_compute in Hid. by injection Hid. }
  rewrite E in Hsub, Hid, Hun.
  split; [exact Hsub|]. split; [exact Hid|]. split; [exact Hun|].
  split; [exact Hs|exact Hc].
Defined.

(** C5 after an announcement was dismissed. *)
Lemma C5_witness :
  subs (exec board [Run; Use "dismiss" [JNum 1]]) ≠ [] ∧
  read (members board) "announcements"
    (notify 0 (state_of true) (exec board [Run; Use "dismiss" [JNum 1]])) =
  (get 0 "getVisibleAnnouncements"
     (notify 0 (state_of true) (exec board [Run; Use "dismiss" [JNum 1]]))).1.
Proof.
  assert (H : subs (exec board [Run; Use "dismiss" [JNum 1]]) ≠ [])
    by (by vm_compute).
  split; [exact H|].
  exact (proj1 (C5_announcements_are_the_visible_ones (JObj [])
                  [Run; Use "dismiss" [JNum 1]] (state_of true) H)).
Defined.

(** C6 at [join(email, opts)] of createWaitlist. *)
Lemma C6_witness :
  ("join", Awaited "join" 2) ∈ spec_delegations Waitlist ∧
  length [JStr "a@b.c"; JObj [("source", JStr "home")]] = arity (Awaited "join" 2) ∧
  use (members (instantiate (create Waitlist (JObj [])))) "join"
    [JStr "a@b.c"; JObj [("source", JStr "home")]]
    (world (instantiate (create Waitlist (JObj [])))) =
  spec_delegate (Awaited "join" 2) [JStr "a@b.c"; JObj [("source", JStr "home")]]
    (world (instantiate (create Waitlist (JObj [])))).
Proof.
  assert (H : ("join", Awaited "join" 2) ∈ spec_delegations Waitlist) by left.
  split; [exact H|]. split; [reflexivity|].
  exact (proj1 (C6_methods_delegate Waitlist (JObj []) "join" (Awaited "join" 2)
                  [JStr "a@b.c"; JObj [("source", JStr "home")]]
                  (world (instantiate (create Waitlist (JObj [])))) H eq_refl)).
Defined.

(** C7 at a helper and at a type. *)
Lemma C7_witness :
  "resolveConfig" ∈ core_values ++ core_types ∧
  resolve index_ts "resolveConfig" = Some (OfCore "resolveConfig") ∧
  resolve index_ts "PollState" = Some (OfCore "PollState").
Proof.
  assert (H1 : "resolveConfig" ∈ core_values ++ core_types)
    by (do 3 right; left).
  assert (H2 : "PollState" ∈ core_values ++ core_types)
    by (do 14 right; left).
  split; [exact H1|]. split.
  - exact (proj1 (C7_reexports_unchanged "resolveConfig" H1)).
  - exact (proj1 (C7_reexports_unchanged "PollState" H2)).
Defined.

(** C8 at the page views: createViews is mounted and records the view,
    on which the toy controller pushes nothing. *)
Lemma C8_witness :
  ("views", JNum 0) ∈ signals Views ∧
  (∀ id s, Notified id s ∉
     log (exec (instantiate (create Views (JObj []))) [Run])) ∧
  log (exec (instantiate (create Views (JObj []))) [Run]) =
    [Constructed "ViewCountsController" [JObj []; JUndefined]; Subscribed 0 0;
     Invoked 0 "record" []] ∧
  is_Some (member "views" (members (instantiate (create Views (JObj []))))) ∧
  read (members (instantiate (create Views (JObj [])))) "views"
    (exec (instantiate (create Views (JObj []))) [Run]) = JNum 0 ∧
  ("views", JNum 0) ∈ spec_defaults ∧
  Forall (λ nv, ∃ q, nv ∈ signals q) spec_defaults.
Proof.
  assert (H1 : ("views", JNum 0) ∈ signals Views) by left.
  assert (H2 : ∀ id s, Notified id s ∉
                 log (exec (instantiate (create Views (JObj []))) [Run])).
  { intros id s.
    intros [[=]|[[=]|[[=]|[]%elem_of_nil]%elem_of_cons]%elem_of_cons]%elem_of_cons. }
  split; [exact H1|]. split; [exact H2|]. split; [by vm_compute|].
  exact (C8_defaults_before_first_notification Views (JObj []) [Run]
           "views" (JNum 0) H1 H2).
Defined.

(** C10: a refresh of the disposed board writes no signal. *)
Lemma C10_witness :
  (∀ id s, Notified id s ∉
     added (exec board [Run; Dispose])
       (step board (exec board [Run; Dispose]) (Use "refresh" []))) ∧
  cells (step board (exec board [Run; Dispose]) (Use "refresh" [])) =
  cells (exec board [Run; Dispose]).
Proof.
  assert (H : ∀ id s, Notified id s ∉
     added (exec board [Run; Dispose])
       (step board (exec board [Run; Dispose]) (Use "refresh" []))).
  { intros id s. intros [[=]|[]%elem_of_nil]%elem_of_cons. }
  split; [exact H|].
  exact (proj1 (C10_signals_written_by_listener_only Announcements (JObj [])
                  [Run; Dispose] (Use "refresh" [])) H).
Defined.

(** C9 at the mount of the announcements board. *)
Lemma C9_witness :
  spec_mount_option Announcements = Some ("autoFetch", "fetch") ∧
  prop (JObj []) "autoFetch" ≠ JBool false ∧
  ∃ w1 o1 id,
    step board (exec board []) Run =
      (onCleanup {| unsub_id := id |} (call 0 "fetch" [] w1).2).2 ∧
    ctls w1 !! 0 = Some o1 ∧
    sub_id <$> subs w1 = [id] ∧
    Subscribed 0 id ∈ added (exec board []) w1 ∧
    Forall (λ e, is_invoked e = false) (added (exec board []) w1) ∧
    added w1 (step board (exec board []) Run) =
      Invoked 0 "fetch" [] ::
        (Notified id <$> pushed (method (class o1) "fetch" [] (internals o1)).1) ∧
    ∀ s name v,
      last (pushed (method (class o1) "fetch" [] (internals o1)).1) = Some s →
      (name, v) ∈ signals Announcements → name ≠ "announcements" →
      read (members board) name (step board (exec board []) Run) = s.[name].
Proof.
  assert (H1 : spec_mount_option Announcements = Some ("autoFetch", "fetch"))
    by reflexivity.
  assert (H2 : prop (JObj []) "autoFetch" ≠ JBool false) by discriminate.
  split; [exact H1|]. split; [exact H2|].
  exact (C9_subscribed_before_auto_call Announcements (JObj []) []
           "autoFetch" "fetch" H1 H2).
Defined.

End Examples.

(** * Further properties *)

Section Further.
Context `{core : Core}.

(** ** The controller stays the one that was constructed *)

Lemma create_world p o :
  world (instantiate (create p o)) =
  {| cells := (signals p).*2;
     ctls := [{| class := controller_class p; ctor_args := controller_args p o;
                 internals := construct (controller_class p) (controller_args p o) |}];
     subs := []; fresh := 0; cleanups := [];
     log := [Constructed (controller_class p) (controller_args p o)] |}.
Proof. by destruct p. Qed.

Lemma sole_perform cls args acts w :
  sole_controller cls args w → sole_controller cls args (perform 0 acts w).
Proof.
  unfold perform. revert w. induction acts as [|a acts IH]; intros w H; [done|].
  simpl. apply IH. destruct a as [c|s]; simpl.
  - destruct H as [c0 H]. exists c. simpl. by rewrite H.
  - unfold sole_controller. by destruct (notify_frame 0 s w) as (-> & _).
Qed.

Lemma sole_call cls args m a w :
  sole_controller cls args w → sole_controller cls args (call 0 m a w).2.
Proof.
  intros H. unfold call. destruct (ctls w !! 0) as [o0|]; [|done].
  simpl. by apply sole_perform.
Qed.

Lemma sole_subscribe cls args l w :
  sole_controller cls args w → sole_controller cls args (subscribe 0 l w).2.
Proof.
  intros H. unfold subscribe. destruct (ctls w !! 0) as [o0|]; [|done].
  simpl. by apply sole_perform.
Qed.

Lemma sole_cleanups cls args w :
  sole_controller cls args w → sole_controller cls args (run_cleanups w).
Proof.
  intros H. unfold run_cleanups, sole_controller. simpl.
  induction (cleanups w) as [|u us IH]; [done|]. done.
Qed.

Lemma sole_member cls args f a w :
  member_kind f → sole_controller cls args w → sole_controller cls args (f a w).2.
Proof.
  intros [k|m pick wrap|g] H.
  - done.
  - apply (sole_call cls args m (pick a) w H).
  - unfold get. by destruct (ctls w !! 0).
Qed.

Lemma sole_effect cls args l m w :
  sole_controller cls args w → sole_controller cls args (effect_of l m w).2.
Proof.
  intros H. rewrite effect_of_world.
  apply (sole_subscribe cls args l) in H.
  destruct m as [m|]; [|exact H].
  apply (sole_call cls args m [] _ H).
Qed.

Lemma sole_step {p o l} (Hw : Wired p o l) cls args w e :
  sole_controller cls args w →
  sole_controller cls args (step (instantiate (create p o)) w e).
Proof.
  intros H. destruct e as [| |name a|acts].
  - rewrite (step_run Hw). by apply sole_effect, sole_cleanups.
  - by apply sole_cleanups.
  - unfold step, use.
    destruct (member name (members (instantiate (create p o)))) as [f|] eqn:E;
      [|exact H].
    apply sole_member; [|done].
    apply (member_Forall _ _ _ _ (wired_members _ _ _ Hw) E).
  - by apply sole_perform.
Qed.

Lemma exec_sole p o evs :
  sole_controller (controller_class p) (controller_args p o)
    (exec (instantiate (create p o)) evs).
Proof.
  destruct (create_wired p o) as [l Hw].
  unfold exec. rewrite create_world.
  match goal with |- sole_controller _ _ (foldl _ ?w0 _) =>
    assert (H : sole_controller (controller_class p) (controller_args p o) w0)
      by (by eexists); revert H; generalize w0 end.
  induction evs as [|e evs IH]; intros w H; [done|].
  simpl. by apply IH, (sole_step Hw).
Qed.

(** X1. A primitive constructs its controller from the resolved
    configuration and, where it has one, the identifying option; creation
    does nothing else; and that controller stays the only one, of the
    same class and with the same constructor arguments, whatever happens
    to the instance. *)
Theorem X1_controller_is_the_constructed_one p o evs :
  let i := instantiate (create p o) in
  log (world i) = [Constructed (controller_class p) (controller_args p o)] ∧
  subs (world i) = [] ∧ cleanups (world i) = [] ∧
  sole_controller (controller_class p) (controller_args p o) (exec i evs).
Proof.
  intros i. subst i. rewrite create_world. simpl.
  split; [done|]. split; [done|]. split; [done|]. apply exec_sole.
Qed.

(** ** The life cycle of the subscriptions *)

Lemma lifecycle_app h n es1 es2 :
  lifecycle h n (es1 ++ es2) =
  match lifecycle h n es1 with
  | Some (h', n') => lifecycle h' n' es2
  | None => None
  end.
Proof.
  revert h n. induction es1 as [|e es1 IH]; intros h n; [done|].
  destruct e; simpl; try done; case_bool_decide; try done; apply IH.
Qed.

Lemma lifecycle_notified id n ss :
  lifecycle (Some id) n (Notified id <$> ss) = Some (Some id, n).
Proof.
  induction ss as [|s ss IH]; [done|]. simpl. by rewrite bool_decide_true.
Qed.

Lemma call_fresh r m a w : fresh (call r m a w).2 = fresh w.
Proof.
  unfold call. destruct (ctls w !! r) as [o0|]; [|done]. simpl.
  by destruct (perform_frame r (method (class o0) m a (internals o0)).1
                 (note (Invoked r m a) w)) as (_ & -> & _).
Qed.

Lemma subscribe_fresh o0 l w :
  ctls w !! 0 = Some o0 → fresh (subscribe 0 l w).2 = S (fresh w).
Proof.
  intros Ho. rewrite (subscribe_world o0); [|done]. simpl.
  by destruct (perform_frame 0 (method (class o0) "subscribe" [] (internals o0)).1
      (note (Subscribed 0 (fresh w))
         (with_fresh (S (fresh w))
            (with_subs (subs w ++ [{| sub_ctl := 0; sub_id := fresh w;
                                      sub_listener := l |}]) w))))
    as (_ & -> & _).
Qed.

Section Cycle.
Context {p : primitive} {o : jsval} {l : Listener} (Hw : Wired p o l).

#[local] Abbreviation i := (instantiate (create p o)).
#[local] Abbreviation n := (length (signals p)).

Lemma holding_inv w :
  Inv l n w →
  (subs w = [] ∧ cleanups w = [] ∧ holding w = None) ∨
  (∃ u, subs w = [held l u] ∧ cleanups w = [u] ∧ holding w = Some (unsub_id u)).
Proof.
  intros [_ _ Hs H1]. unfold holding.
  destruct (cleanups w) as [|u [|]]; simpl in *; [| |lia]; rewrite Hs.
  - by left.
  - right. by exists u.
Qed.

Lemma lifecycle_deliveries w acts k :
  Inv l n w →
  lifecycle (holding w) k (deliveries 0 (subs w) acts) = Some (holding w, k).
Proof.
  intros HI. destruct (holding_inv w HI) as [(Hs & _ & ->)|(u & Hs & _ & ->)];
    rewrite Hs.
  - by rewrite deliveries_nobody.
  - rewrite deliveries_held. apply lifecycle_notified.
Qed.

Lemma lifecycle_cleanups w k :
  Inv l n w →
  lifecycle (holding w) k ((λ u, Unsubscribed (unsub_id u)) <$> cleanups w) =
  Some (None, k).
Proof.
  intros HI. destruct (holding_inv w HI) as [(_ & -> & ->)|(u & _ & -> & ->)];
    [done|].
  simpl. by rewrite bool_decide_true.
Qed.

(** The run of the effect in full: the log it leaves and the world
    it ends in. *)
Lemma run_log w :
  Inv l n w →
  ∃ ss1 tail,
    log (step i w Run) =
      log w ++ ((λ u, Unsubscribed (unsub_id u)) <$> cleanups w) ++
      Subscribed 0 (fresh w) :: (Notified (fresh w) <$> ss1) ++ tail ∧
    match auto p o with
    | Some m => ∃ ss2, tail = Invoked 0 m [] :: (Notified (fresh w) <$> ss2)
    | None => tail = []
    end ∧
    holding (step i w Run) = Some (fresh w) ∧
    fresh (step i w Run) = S (fresh w).
Proof.
  intros HI.
  destruct (run_anatomy Hw w HI) as (Es & Hs1 & _ & _ & Hk1 & o0 & El1).
  destruct (inv_cleanups l n w HI) as (HI0 & _ & _ & _ & _ & Hf0 & _).
  destruct (the_controller _ (inv_ctls _ _ _ HI0)) as [o0' Ho0].
  pose proof (subscribe_fresh o0' l _ Ho0) as Hf1. rewrite Hf0 in Hf1.
  set (w1 := (subscribe 0 l (run_cleanups w)).2) in *.
  exists (pushed (method (class o0) "subscribe" [] (internals o0)).1).
  destruct (auto p o) as [m|] eqn:Ha.
  - destruct (run_call Hw w m HI Ha) as (o1 & Ho1 & Es' & El).
    fold w1 in Ho1, Es', El.
    destruct (call_frame o1 m [] w1 Ho1) as (Hs2 & _).
    eexists. split; [|split; [by eexists|]].
    + rewrite El, El1. by rewrite <- !app_assoc.
    + rewrite Es'. unfold holding. simpl. by rewrite Hs2, Hs1, call_fresh, Hf1.
  - exists []. split; [|split; [done|]].
    + rewrite (run_without_call Hw w HI Ha). fold w1. rewrite El1.
      by rewrite app_nil_r.
    + rewrite Es. unfold holding. simpl. by rewrite Hs1, Hf1.
Qed.

Lemma step_lifecycle w e :
  Inv l n w →
  ∃ es, log (step i w e) = log w ++ es ∧
        lifecycle (holding w) (fresh w) es =
        Some (holding (step i w e), fresh (step i w e)).
Proof.
  intros HI. destruct e as [| |name a|acts].
  - destruct (run_log w HI) as (ss1 & tail & El & Ht & Hh & Hf).
    eexists. split; [exact El|]. rewrite Hh, Hf.
    rewrite lifecycle_app, (lifecycle_cleanups w _ HI). simpl.
    rewrite ?bool_decide_true by done.
    rewrite lifecycle_app, lifecycle_notified.
    destruct (auto p o) as [m|].
    + destruct Ht as [ss2 ->]. simpl. rewrite ?bool_decide_true by done.
      apply lifecycle_notified.
    + by rewrite Ht.
  - destruct (inv_cleanups l n w HI) as (_ & Hs & _ & _ & _ & Hf & Hl).
    eexists. split; [exact Hl|].
    change (step i w Dispose) with (run_cleanups w).
    unfold holding at 2. rewrite Hs, Hf. apply (lifecycle_cleanups w _ HI).
  - unfold step, use.
    destruct (member name (members i)) as [f|] eqn:E;
      [|exists []; by rewrite app_nil_r].
    destruct (member_Forall _ _ _ _ (wired_members _ _ _ Hw) E) as [k|m pick wrap|g].
    + exists []. by rewrite app_nil_r.
    + destruct (the_controller w) as [o0 Ho0]; [by destruct HI|].
      change (∃ es, log (call 0 m (pick a) w).2 = log w ++ es ∧
                lifecycle (holding w) (fresh w) es =
                Some (holding (call 0 m (pick a) w).2, fresh (call 0 m (pick a) w).2)).
      destruct (call_frame o0 m (pick a) w Ho0) as (Hs & _ & _ & Hl).
      eexists. split; [exact Hl|]. simpl. rewrite ?bool_decide_true by done.
      unfold holding at 2. rewrite Hs, call_fresh.
      apply (lifecycle_deliveries w _ _ HI).
    + unfold get. destruct (ctls w !! 0); exists []; by rewrite app_nil_r.
  - simpl. destruct (perform_frame 0 acts w) as (Hs & Hf & _ & _ & Hl).
    eexists. split; [exact Hl|]. unfold holding at 2. rewrite Hs, Hf.
    apply (lifecycle_deliveries w _ _ HI).
Qed.

Lemma steps_lifecycle evs w es0 :
  Inv l n w →
  lifecycle None 0 es0 = Some (holding w, fresh w) →
  ∃ es, log (foldl (step i) w evs) = log w ++ es ∧
        lifecycle None 0 (es0 ++ es) =
        Some (holding (foldl (step i) w evs), fresh (foldl (step i) w evs)).
Proof.
  revert w es0. induction evs as [|e evs IH]; intros w es0 HI H0.
  - exists []. by rewrite !app_nil_r.
  - destruct (step_lifecycle w e HI) as (es1 & El1 & H1).
    destruct (IH (step i w e) (es0 ++ es1) (step_inv Hw w e HI)) as (es2 & El2 & H2).
    { by rewrite lifecycle_app, H0. }
    exists (es1 ++ es2). simpl. split; [by rewrite El2, El1, app_assoc|].
    by rewrite app_assoc.
Qed.

End Cycle.

(** X2. After the construction, the log of an instance follows the life
    cycle of its subscriptions, whatever the order of runs, disposals,
    method calls and controller activity: a subscription is established
    only while none is held and gets an id not used before, only the
    subscription held is ever unsubscribed, so each at most once, and a
    notification is never delivered to a subscription that has ended.
    The acceptor ends in the subscription the instance holds. *)
Theorem X2_subscription_life_cycle p o evs :
  let i := instantiate (create p o) in
  let w := exec i evs in
  ∃ es,
    log w = Constructed (controller_class p) (controller_args p o) :: es ∧
    lifecycle None 0 es = Some (holding w, fresh w).
Proof.
  intros i w. subst w i. destruct (create_wired p o) as [l Hw].
  destruct (steps_lifecycle Hw evs (world (instantiate (create p o))) []
              (wired_start Hw)) as (es & El & H).
  { by rewrite create_world. }
  exists es. split; [|exact H].
  unfold exec. rewrite El. by rewrite create_world.
Qed.

(** ** The returned methods, for any arguments *)

Lemma use_delegation p o name d args w :
  (name, d) ∈ spec_delegations p →
  use (members (instantiate (create p o))) name args w =
  spec_delegate d (params (arity d) args) w.
Proof.
  intros Hin.
  destruct p; simpl in Hin;
    repeat (apply elem_of_cons in Hin as [[= -> ->]|Hin]);
    try (by apply elem_of_nil in Hin); reflexivity.
Qed.


Lemma params_spec k args :
  params k args = take k (args ++ replicate k JUndefined).
Proof.
  apply list_eq. intros j. unfold params, arg.
  rewrite list_lookup_fmap, lookup_take.
  destruct (decide (j < k)) as [Hj|Hj].
  - rewrite lookup_seq_lt by done. simpl.
    destruct (decide (j < length args)) as [Ha|Ha].
    + rewrite lookup_app_l by done.
      destruct (lookup_lt_is_Some_2 args j Ha) as [x Hx].
      rewrite Hx. f_equal. by apply nth_lookup_Some with (d := JUndefined) in Hx.
    + rewrite lookup_app_r by lia. rewrite lookup_replicate_2 by lia.
      f_equal. apply nth_overflow. lia.
  - rewrite lookup_seq_ge by lia. done.
Qed.




Lemma added_same w : added w w = [].
Proof. unfold added. by rewrite drop_all. Qed.

Lemma get_world r g w : (get r g w).2 = w.
Proof. unfold get. by destruct (ctls w !! r). Qed.

(** X3. A returned method binds its parameters by position, whatever it
    is called with: the controller's method receives exactly as many
    arguments as the method declares, the first ones given and
    [undefined] for those missing, and further ones are dropped; reset
    and hasVoted pass none. *)
Theorem X3_arguments_by_position p o evs name d args :
  let i := instantiate (create p o) in
  let w := exec i evs in
  (name, d) ∈ spec_delegations p →
  use (members i) name args w =
    spec_delegate d (take (arity d) (args ++ replicate (arity d) JUndefined)) w ∧
  head (added w (step i w (Use name args))) =
    match d with
    | Awaited m k =>
        Some (Invoked 0 m (take k (args ++ replicate k JUndefined)))
    | Called m => Some (Invoked 0 m [])
    | Returns _ => None
    end.
Proof.
  intros i w Hin. subst i w. rewrite <- !params_spec.
  set (W := exec (instantiate (create p o)) evs).
  pose proof (use_delegation p o name d args W Hin) as Hu.
  split; [exact Hu|]. unfold step. rewrite Hu.
  destruct (create_wired p o) as [l Hw].
  destruct (the_controller _ (inv_ctls _ _ _ (exec_inv Hw evs))) as [o0 Ho0].
  fold W in Ho0.
  destruct d as [m k|m|g].
  - change (head (added W (call 0 m (params k args) W).2) =
            Some (Invoked 0 m (take k (args ++ replicate k JUndefined)))).
    destruct (call_frame o0 m (params k args) _ Ho0) as (_ & _ & _ & Hl).
    by rewrite <- params_spec, (follows_added _ _ _ Hl).
  - change (head (added W (call 0 m [] W).2) = Some (Invoked 0 m [])).
    destruct (call_frame o0 m [] _ Ho0) as (_ & _ & _ & Hl).
    by rewrite (follows_added _ _ _ Hl).
  - simpl. by rewrite get_world, added_same.
Qed.

(** X4. What a returned method hands back: an asynchronous method never
    passes on the controller's result; its promise is rejected with the
    controller's reason when the controller's promise is rejected and is
    fulfilled with [undefined] in every other case, also when the
    controller returns no promise; reset returns [undefined] whatever the
    controller's reset returns; hasVoted returns the controller's answer. *)
Theorem X4_result_of_a_method p o name d args w :
  let i := instantiate (create p o) in
  (name, d) ∈ spec_delegations p →
  (use (members i) name args w).1 =
    match d with
    | Awaited m k =>
        let r := (call 0 m (take k (args ++ replicate k JUndefined)) w).1 in
        if is_rejected r then r else JPromise true JUndefined
    | Called _ => JUndefined
    | Returns g => (get 0 g w).1
    end.
Proof.
  intros i Hin. subst i. rewrite (use_delegation p o name d args w Hin).
  destruct d as [m k|m|g]; simpl; [|done..].
  rewrite <- params_spec.
  change ((call 0 m (params k args) ≫= λ p0, mret (async_await p0)) w).1
    with (async_await (call 0 m (params k args) w).1).
  by destruct (call 0 m (params k args) w).1 as [| | | | | | |[] ?].
Qed.

(** X6. While the subscription is held the signals show the last state
    pushed and nothing of the earlier ones: after any activity of the
    controller, and after a call of an asynchronous method, that pushes
    at least one state, every signal accessor other than announcements
    returns the field of its name of the last state pushed. *)
Theorem X6_last_pushed_state_shows p o evs s name v :
  let i := instantiate (create p o) in
  let w := exec i evs in
  subs w ≠ [] →
  (name, v) ∈ signals p →
  name ≠ "announcements" →
  (∀ acts, last (pushed acts) = Some s →
     read (members i) name (step i w (Async acts)) = s.[name]) ∧
  (∀ name' m k args c,
     (name', Awaited m k) ∈ spec_delegations p →
     ctls w !! 0 = Some c →
     last (pushed (method (class c) m (take k (args ++ replicate k JUndefined))
                     (internals c)).1) = Some s →
     read (members i) name (step i w (Use name' args)) = s.[name]).
Proof.
  intros i w Hne Hin Hname. subst i w.
  destruct (create_wired p o) as [l Hw].
  set (W := exec (instantiate (create p o)) evs) in *.
  pose proof (exec_inv Hw evs) as HI. fold W in HI.
  destruct (held_subscription W HI Hne) as (u & Hs & _).
  apply list_elem_of_lookup in Hin as [j Hj].
  assert (Hf : ∀ cs, stored p name s cs = s.[name])
    by (intros cs; apply stored_field; by intros [_ ?]).
  split.
  - intros acts Hl.
    destruct (perform_last Hw u acts s W Hs (inv_cells _ _ _ HI) Hl) as [cs Hcs].
    rewrite <- (Hf cs). by apply (read_stored Hw j name v s cs).
  - intros name' m k args c Hd Hc Hl. rewrite <- params_spec in Hl.
    destruct (perform_last Hw u _ s (note (Invoked 0 m (params k args)) W)
                Hs (inv_cells _ _ _ HI) Hl) as [cs Hcs].
    rewrite <- (Hf cs). apply (read_stored Hw j name v s cs); [done|].
    rewrite <- Hcs. unfold step. rewrite (use_delegation p o name' _ args W Hd). simpl.
    change ((call 0 m (params k args) ≫= λ p0, mret (async_await p0)) W).2
      with (call 0 m (params k args) W).2.
    by rewrite (call_world c).
Qed.

(** X9. hasVoted of createPoll is read from the controller at each call
    and is no signal: when the controller changes without pushing a state,
    hasVoted returns the new answer at once while every signal keeps its
    value. *)
Theorem X9_hasVoted_is_read_on_demand o evs c :
  let i := instantiate (create Poll o) in
  let w := exec i evs in
  let w' := step i w (Async [Become c]) in
  read (members i) "hasVoted" w' = getter "PollController" "hasVoted" c ∧
  cells w' = cells w.
Proof.
  intros i w w'. split; [|done].
  destruct (exec_sole Poll o evs) as [c0 Hc]. fold i w in Hc.
  unfold read, use. simpl. unfold get. simpl. by rewrite Hc.
Qed.


(** ** The build output *)

Lemma resolve_compile_value ds name :
  name ∉ type_names ds → resolve (compile ds) name = resolve ds name.
Proof.
  unfold compile. induction ds as [|d ds IH]; intros Hn; [done|].
  unfold type_names in Hn. simpl in Hn. apply not_elem_of_app in Hn as [Hd Hn].
  destruct d as [names from|names from|nm|nm q].
  - rewrite filter_cons_False by done. simpl.
    rewrite bool_decide_false by done. by apply IH.
  - rewrite filter_cons_True by done. simpl. by rewrite IH.
  - rewrite filter_cons_False by done. simpl.
    apply not_elem_of_cons in Hd as [Hd _].
    destruct (String.eqb_spec name nm); [done|]. by apply IH.
  - rewrite filter_cons_True by done. simpl. by rewrite IH.
Qed.

Lemma resolve_compile_type ds name :
  name ∉ value_names ds → resolve (compile ds) name = None.
Proof.
  unfold compile. induction ds as [|d ds IH]; intros Hn; [done|].
  unfold value_names in Hn. simpl in Hn. apply not_elem_of_app in Hn as [Hd Hn].
  destruct d as [names from|names from|nm|nm q].
  - rewrite filter_cons_False by done. by apply IH.
  - rewrite filter_cons_True by done. simpl.
    rewrite bool_decide_false by done. by apply IH.
  - rewrite filter_cons_False by done. by apply IH.
  - rewrite filter_cons_True by done. simpl.
    apply not_elem_of_cons in Hd as [Hd _].
    destruct (String.eqb_spec name nm); [done|]. by apply IH.
Qed.

(** X8. The build output exports what the source exports as values and
    nothing else: [dist/index.js] is [src/index.ts] with the type-only
    exports erased, every other name is bound in both to the same thing,
    and no name is exported both as a type and as a value. *)
Theorem X8_build_output_exports name :
  index_js = compile index_ts ∧
  resolve index_js name =
    (if bool_decide (name ∈ type_names index_ts) then None
     else resolve index_ts name) ∧
  Forall (λ x, x ∉ value_names index_ts) (type_names index_ts).
Proof.
  assert (Hd : Forall (λ x, x ∉ value_names index_ts) (type_names index_ts)).
  { apply (bool_decide_unpack _). by vm_compute. }
  split; [done|]. split; [|exact Hd].
  change index_js with (compile index_ts).
  case_bool_decide as Hin.
  - apply resolve_compile_type. by apply (proj1 (Forall_forall _ _) Hd).
  - by apply resolve_compile_value.
Qed.

End Further.

(** ** The further properties at work on the toy core *)

Section FurtherExamples.
#[local] Existing Instance Toy.core.
Import Toy.

(** The waitlist's join called with the address only still passes two
    arguments. *)
Example join_with_one_argument :
  log (step (instantiate (create Waitlist (JObj [])))
         (exec (instantiate (create Waitlist (JObj []))) [Run])
         (Use "join" [JStr "a@b.c"])) =
  [Constructed "WaitlistController" [JObj []]; Subscribed 0 0;
   Invoked 0 "join" [JStr "a@b.c"; JUndefined]].
Proof. by vm_compute. Qed.

(** X3 at [join(email)] of createWaitlist. *)
Lemma X3_witness :
  ("join", Awaited "join" 2) ∈ spec_delegations Waitlist ∧
  use (members (instantiate (create Waitlist (JObj [])))) "join" [JStr "a@b.c"]
    (exec (instantiate (create Waitlist (JObj []))) [Run]) =
    spec_delegate (Awaited "join" 2)
      (take (arity (Awaited "join" 2))
         ([JStr "a@b.c"] ++ replicate (arity (Awaited "join" 2)) JUndefined))
      (exec (instantiate (create Waitlist (JObj []))) [Run]) ∧
  head (added (exec (instantiate (create Waitlist (JObj []))) [Run])
          (step (instantiate (create Waitlist (JObj [])))
             (exec (instantiate (create Waitlist (JObj []))) [Run])
             (Use "join" [JStr "a@b.c"]))) =
    Some (Invoked 0 "join" (take 2 ([JStr "a@b.c"] ++ replicate 2 JUndefined))).
Proof.
  assert (H : ("join", Awaited "join" 2) ∈ spec_delegations Waitlist) by left.
  split; [exact H|].
  exact (X3_arguments_by_position Waitlist (JObj []) [Run] "join"
           (Awaited "join" 2) [JStr "a@b.c"] H).
Defined.

(** X4 at a dismissal the toy controller rejects. *)
Lemma X4_witness :
  ("dismiss", Awaited "dismiss" 1) ∈ spec_delegations Announcements ∧
  (use (members (instantiate (create Announcements (JObj [])))) "dismiss"
     [JStr "x"] (exec board [Run])).1 =
    (let r := (call 0 "dismiss" (take 1 ([JStr "x"] ++ replicate 1 JUndefined))
                 (exec board [Run])).1 in
     if is_rejected r then r else JPromise true JUndefined) ∧
  (call 0 "dismiss" (take 1 ([JStr "x"] ++ replicate 1 JUndefined))
     (exec board [Run])).1 = JPromise false (JStr "bad id").
Proof.
  assert (H : ("dismiss", Awaited "dismiss" 1) ∈ spec_delegations Announcements)
    by left.
  split; [exact H|]. split; [|by vm_compute].
  exact (X4_result_of_a_method Announcements (JObj []) "dismiss"
           (Awaited "dismiss" 1) [JStr "x"] (exec board [Run]) H).
Defined.

(** X6 at the status of the mounted board. *)
Lemma X6_witness :
  subs (exec (instantiate (create Announcements (JObj []))) [Run]) ≠ [] ∧
  ("status", JStr "idle") ∈ signals Announcements ∧
  "status" ≠ "announcements" ∧
  (∀ acts, last (pushed acts) = Some (state_of true) →
     read (members (instantiate (create Announcements (JObj [])))) "status"
       (step (instantiate (create Announcements (JObj [])))
          (exec (instantiate (create Announcements (JObj []))) [Run])
          (Async acts)) = (state_of true).["status"]) ∧
  (∀ name' m k args c,
     (name', Awaited m k) ∈ spec_delegations Announcements →
     ctls (exec (instantiate (create Announcements (JObj []))) [Run]) !! 0 = Some c →
     last (pushed (method (class c) m (take k (args ++ replicate k JUndefined))
                     (internals c)).1) = Some (state_of true) →
     read (members (instantiate (create Announcements (JObj [])))) "status"
       (step (instantiate (create Announcements (JObj [])))
          (exec (instantiate (create Announcements (JObj []))) [Run])
          (Use name' args)) = (state_of true).["status"]).
Proof.
  assert (H1 : subs (exec (instantiate (create Announcements (JObj []))) [Run]) ≠ [])
    by (by vm_compute).
  assert (H2 : ("status", JStr "idle") ∈ signals Announcements) by (right; left).
  assert (H3 : "status" ≠ "announcements") by discriminate.
  split; [exact H1|]. split; [exact H2|]. split; [exact H3|].
  exact (X6_last_pushed_state_shows Announcements (JObj []) [Run]
           (state_of true) "status" (JStr "idle") H1 H2 H3).
Defined.

End FurtherExamples.
